(** * scrrpy: resonant-relaxation diffusion coefficients (src/scrrpy/drr.py)

    A shallow embedding of [drr.py].  Python floats are read as real numbers
    (the Standard Library's [R]); every rounding step of IEEE arithmetic is
    idealised away, so the statements below are about the arithmetic the code
    writes down, not about its last bits.  Integer arguments ([l], [n], [n_p],
    array indices, sample counts) stay integers.

    The module [cusp.py] (class [Cusp]) is a collaborator of [drr.py]; its
    functions and constants enter as the fields of the record [Cusp].  The
    Monte Carlo integrator ([vegas]) and [scipy.special.sph_harm] are
    libraries and enter as section variables. *)

From Stdlib Require Import Reals List ZArith Lra Lia Bool Arith.
From Stdlib Require Import Permutation Sorted.
From Stdlib Require String.
Import ListNotations.

Local Open Scope R_scope.

(** ** Exceptions and results *)

Inductive exn : Type :=
| ValueError
| ZeroDivisionError
| UnboundLocalError
| IndexError.

Inductive result (A : Type) : Type :=
| Ok (a : A)
| Raise (e : exn).

Arguments Ok {A} a.
Arguments Raise {A} e.

Definition bind {A B : Type} (m : result A) (k : A -> result B) : result B :=
  match m with
  | Ok a => k a
  | Raise e => Raise e
  end.

Notation "x <- m ;; k" := (bind m (fun x => k))
  (at level 61, m at next level, right associativity).

(** ** Comparisons of floats, as booleans *)

Definition Rltb (x y : R) : bool := if Rlt_dec x y then true else false.
Definition Rgtb (x y : R) : bool := Rltb y x.
Definition Rleb (x y : R) : bool := if Rle_dec x y then true else false.
Definition Rgeb (x y : R) : bool := Rleb y x.
Definition Reqb (x y : R) : bool := if Req_dec_T x y then true else false.

(** ** The numpy operations that [drr.py] uses *)

Module Np.

(** [10 ** y].  Floats are read as real numbers, so this is the exact
    power; the code's value is its rounding. *)
Definition pow10 (y : R) : R := Rpower 10 y.

(** [np.log10], read over the reals likewise. *)
Definition log10 (x : R) : R := ln x / ln 10.

(** [np.linspace(start, stop, num)]: [num] points [start + i*step] with
    [step = (stop - start)/(num - 1)]; with the default [endpoint=True] the
    last point is overwritten by [stop] when [num > 1]. *)
Definition linspace_raw (start stop : R) (num : nat) : list R :=
  map (fun i => start + INR i * ((stop - start) / INR (num - 1)))
      (seq 0 num).

Definition linspace (start stop : R) (num : nat) : list R :=
  match num with
  | O => []
  | S O => linspace_raw start stop 1
  | S (S _) => removelast (linspace_raw start stop num) ++ [stop]
  end.

(** [np.logspace(start, stop, num)] is [10 ** linspace(start, stop, num)]. *)
Definition logspace (start stop : R) (num : nat) : list R :=
  map pow10 (linspace start stop num).

(** [a[:-1]]. *)
Definition drop_last {A : Type} (l : list A) : list A := removelast l.

(** Boolean-mask selection [a[m]]. *)
Fixpoint select {A : Type} (l : list A) (m : list bool) : list A :=
  match l, m with
  | x :: l', b :: m' => if b then x :: select l' m' else select l' m'
  | _, _ => []
  end.

(** Boolean-mask assignment [x[m] = v]: the values of [v] are written, in
    order, to the positions of [x] where [m] is true; the other positions
    keep their value.  numpy raises when [v] has not as many elements as
    [m] has true entries. *)
Fixpoint assign (x : list R) (m : list bool) (v : list R)
  : result (list R) :=
  match x, m with
  | [], [] => match v with [] => Ok [] | _ => Raise ValueError end
  | xi :: x', b :: m' =>
      if b then
        match v with
        | [] => Raise ValueError
        | vi :: v' => r <- assign x' m' v' ;; Ok (vi :: r)
        end
      else r <- assign x' m' v ;; Ok (xi :: r)
  | _, _ => Raise IndexError
  end.

(** [a.max()]; numpy raises [ValueError] on an empty array. *)
Definition amax (l : list R) : result R :=
  match l with
  | [] => Raise ValueError
  | x :: l' => Ok (fold_left Rmax l' x)
  end.

(** [np.argmin]: index of the first minimum; raises on an empty array. *)
Fixpoint argmin_from (best : R) (ibest : nat) (i : nat) (l : list R) : nat :=
  match l with
  | [] => ibest
  | x :: l' =>
      if Rltb x best then argmin_from x i (S i) l'
      else argmin_from best ibest (S i) l'
  end.

Definition argmin (l : list R) : result nat :=
  match l with
  | [] => Raise ValueError
  | x :: l' => Ok (argmin_from x 0%nat 1%nat l')
  end.

(** [np.interp(x, xp, fp, left, right)] at one point [x].

    numpy raises [ValueError] on empty sample points.  Otherwise [x] below
    the first sample gives [left], [x] above the last gives [right], and
    in between the index [j] with [xp[j] <= x < xp[j+1]] is located and
    [fp[j] + slope*(x - xp[j])] is returned, [fp[j]] itself at a sample
    point and at the last sample. *)
Fixpoint interp_scan (x : R) (x0 f0 : R) (xs : list (R * R)) : R :=
  match xs with
  | [] => f0
  | (x1, f1) :: rest =>
      if Rleb x1 x then interp_scan x x1 f1 rest
      else if Reqb x0 x then f0
      else (f1 - f0) / (x1 - x0) * (x - x0) + f0
  end.

Definition interp_at (x : R) (p0 : R * R) (rest : list (R * R))
           (left right : R) : R :=
  if Rltb x (fst p0) then left
  else if Rltb (fst (last rest p0)) x then right
  else interp_scan x (fst p0) (snd p0) rest.

(** The vectorised call: one result per query point. *)
Definition interp (xs : list R) (pts : list (R * R)) (left right : R)
  : result (list R) :=
  match pts with
  | [] => Raise ValueError
  | p0 :: rest => Ok (map (fun x => interp_at x p0 rest left right) xs)
  end.

(** [np.argsort] followed by indexing both arrays with the permutation:
    the pairs [(key, value)] ordered by key.  Insertion keeps equal keys in
    their original order. *)
Fixpoint insert_by_key (p : R * R) (l : list (R * R)) : list (R * R) :=
  match l with
  | [] => [p]
  | q :: l' =>
      if Rleb (fst p) (fst q) then p :: q :: l'
      else q :: insert_by_key p l'
  end.

Fixpoint sort_by_key (l : list (R * R)) : list (R * R) :=
  match l with
  | [] => []
  | p :: l' => insert_by_key p (sort_by_key l')
  end.

(** [np.zeros(n)] and [np.zeros([r, c])]. *)
Definition zeros (n : nat) : list R := repeat 0 n.
Definition zeros2 (r c : nat) : list (list R) := repeat (zeros c) r.

(** Row assignment [t[i, :] = row]; numpy raises [IndexError] out of range
    and [ValueError] when the row has the wrong length. *)
Fixpoint set_row (t : list (list R)) (i : nat) (row : list R)
  : result (list (list R)) :=
  match t, i with
  | [], _ => Raise IndexError
  | r :: t', O =>
      if Nat.eqb (length r) (length row) then Ok (row :: t')
      else Raise ValueError
  | r :: t', S i' => t'' <- set_row t' i' row ;; Ok (r :: t'')
  end.

(** [sum(m)] of a boolean array: the number of true entries. *)
Definition count_true (m : list bool) : nat := length (filter (fun b : bool => b) m).

(** Column [t[:, i]]. *)
Definition column (t : list (list R)) (i : nat) : list R :=
  map (fun row => nth i row 0) t.

End Np.

(** ** The cusp model ([cusp.py], a collaborator of [drr.py]) *)

Record Cusp : Type := {
  rg : R;                         (* gravitational radius *)
  rh : R;                         (* radius of influence *)
  a_gr1 : R;                      (* axis where precession changes sign *)
  jlc : R -> R;                   (* loss-cone angular momentum *)
  nu_p : R -> R -> R;             (* precession frequency nu_p(a, j) *)
  d_nu_p : R -> R -> R;           (* its derivative *)
  nu_p1 : R -> R;                 (* frequency along the critical curve *)
  inverse_cumulative_a : R -> R   (* inverse CDF of the semi-major axis *)
}.

(** ** The coupling integrand *)

(** The harmonic triple [lnnp = [l, n, n_p]]. *)
Record Lnnp : Type := { l_ : Z; n_ : Z; np_ : Z }.

(** [lnnp[1]] and [lnnp[-1]]. *)
Definition lnnp_1 (t : Lnnp) : Z := n_ t.
Definition lnnp_last (t : Lnnp) : Z := np_ t.

(** The four true anomalies of one sample point: a column of the
    [4 x batch] array [true_anomaly]. *)
Record Anomaly : Type := { ta1 : R; ta2 : R; ta3 : R; ta4 : R }.

(** [A2_integrand] at one sample point. *)
Definition A2_integrand (sma j sma_p j_p : R) (lnnp : Lnnp) (ta : Anomaly)
  : R :=
  let l := l_ lnnp in
  let n := IZR (n_ lnnp) in
  let n_p := IZR (np_ lnnp) in
  let cnnp := cos (ta1 ta * n) * cos (ta2 ta * n)
              * cos (ta3 ta * n_p) * cos (ta4 ta * n_p) in
  let ecc := sqrt (1 - j ^ 2) in
  let eccp := sqrt (1 - j_p ^ 2) in
  let r_1 := sma * (1 - ecc ^ 2) / (1 - ecc * cos (ta1 ta)) in
  let r_2 := sma * (1 - ecc ^ 2) / (1 - ecc * cos (ta2 ta)) in
  let rp1 := sma_p * (1 - eccp ^ 2) / (1 - eccp * cos (ta3 ta)) in
  let rp2 := sma_p * (1 - eccp ^ 2) / (1 - eccp * cos (ta4 ta)) in
  cnnp / j ^ 2 / j_p ^ 2 / sma ^ 2 / sma_p ^ 4
  * powerRZ (Rmin r_1 rp1 * Rmin r_2 rp2) (2 * l + 1)
  / powerRZ (r_1 * r_2 * rp1 * rp2) (l - 1).

Section NormFactor.

(** [abs(special.sph_harm(m, l, 0, np.pi/2))]: the modulus of the
    spherical harmonic of order [m] and degree [l] in the orbital plane. *)
Variable sph_harm_abs : Z -> Z -> R.

(** [_A2_norm_factor(l, n, n_p)]. *)
Definition _A2_norm_factor (l n n_p : Z) : R :=
  sph_harm_abs n l ^ 2 * sph_harm_abs n_p l ^ 2
  * (4 * PI / IZR (2 * l + 1)) ^ 2 / IZR (2 * l + 1).

End NormFactor.

(** ** The resonance interpolator (class [ResInterp]) *)

Module ResInterp.

Record t : Type := {
  omega : list R;          (* self.omega: the target frequencies *)
  _af : list R;            (* self._af: the axis samples *)
  _j1 : list (list R);     (* self._j1[axis, frequency] *)
  _j2 : list (list R)      (* self._j2[axis, frequency] *)
}.

(** [self._jf = np.logspace(np.log10(cusp.jlc(a)), 0, 1001)[:-1]]. *)
Definition jf_grid (c : Cusp) (a : R) : list R :=
  Np.drop_last (Np.logspace (Np.log10 (jlc c a)) 0 1001).

(** The mask [v > 0] of an array. *)
Definition positive (v : list R) : list bool :=
  map (fun x => Rgtb x 0) v.

(** The local function [get_j(nup)] of [__init__], with the [self._jf]
    and [self.omega] it reads made arguments. *)
Definition get_j (omega jf nup : list R) : result (list R) :=
  let m := positive nup in
  let jf' := Np.select jf m in
  let nup' := Np.select nup m in
  Np.interp omega (Np.sort_by_key (combine nup' jf')) 0 0.

(** The first loop of [__init__]: rows of the axis samples below
    [a_gr1], written from row [i] on. *)
Fixpoint fill_below (c : Cusp) (omega : list R) (rows : list R) (i : nat)
         (j1 : list (list R)) : result (list (list R)) :=
  match rows with
  | [] => Ok j1
  | a :: rows' =>
      let jf := jf_grid c a in
      let nup := map (nu_p c a) jf in
      row <- get_j omega jf nup ;;
      j1' <- Np.set_row j1 i row ;;
      fill_below c omega rows' (S i) j1'
  end.

(** The second loop: the samples above [a_gr1], written to the rows
    [i + last]; branch 2 is filled when some sampled frequency is
    negative. *)
Fixpoint fill_above (c : Cusp) (omega : list R) (rows : list R) (i : nat)
         (last : nat) (j12 : list (list R) * list (list R))
  : result (list (list R) * list (list R)) :=
  match rows with
  | [] => Ok j12
  | a :: rows' =>
      let jf := jf_grid c a in
      let nup := map (nu_p c a) jf in
      row1 <- get_j omega jf nup ;;
      j1' <- Np.set_row (fst j12) (i + last) row1 ;;
      j2' <- (if existsb (fun v => Rltb v 0) nup then
                row2 <- get_j omega jf (map Ropp nup) ;;
                Np.set_row (snd j12) (i + last) row2
              else Ok (snd j12)) ;;
      fill_above c omega rows' (S i) last (j1', j2')
  end.

Definition __init__ (c : Cusp) (omega : list R) : result t :=
  let af0 := Np.logspace (Np.log10 (rg c)) (Np.log10 (rh c)) 1000 in
  omax <- Np.amax omega ;;
  a_min <- Np.amax (Np.select af0
             (map (fun a => Rltb a (a_gr1 c) && Rltb omax (nu_p1 c a))
                  af0)) ;;
  let af := Np.logspace (Np.log10 a_min) (Np.log10 (rh c)) 1000 in
  let j1 := Np.zeros2 (length af) (length omega) in
  let j2 := Np.zeros2 (length af) (length omega) in
  let below := Np.select af (map (fun a => Rltb a (a_gr1 c)) af) in
  let above := Np.select af (map (fun a => Rgtb a (a_gr1 c)) af) in
  j1 <- fill_below c omega below 0 j1 ;;
  last <- match below with
          | [] => Raise UnboundLocalError
          | _ => Ok (length below)
          end ;;
  j12 <- fill_above c omega above 0 last (j1, j2) ;;
  Ok {| omega := omega; _af := af; _j1 := fst j12; _j2 := snd j12 |}.

(** The tolerance [1e-8] of the frequency lookup. *)
Definition tol : R := 1 / 100000000.

(** The common body of [get_jf1] and [get_jf2], for the table [tbl]. *)
Definition get_jf (self : t) (tbl : list (list R)) (om : R)
           (af : list R) : result (list R) :=
  i <- Np.argmin (map (fun w => Rabs (w - om)) (omega self)) ;;
  if Rgtb (Rabs (nth i (omega self) 0 - om)) tol then Raise ValueError
  else
    let j := Np.column tbl i in
    let m := positive j in
    if Nat.ltb 0 (Np.count_true m) then
      Np.interp af (combine (Np.select (_af self) m) (Np.select j m)) 0 0
    else Ok (map (fun a => a * 0) af).

Definition get_jf1 (self : t) (om : R) (af : list R) : result (list R) :=
  get_jf self (_j1 self) om af.

Definition get_jf2 (self : t) (om : R) (af : list R) : result (list R) :=
  get_jf self (_j2 self) om af.

End ResInterp.

(** ** State and errors together *)

Definition St (W A : Type) : Type := W -> result A * W.

Definition ret {W A : Type} (a : A) : St W A := fun w => (Ok a, w).

Definition raise {W A : Type} (e : exn) : St W A := fun w => (Raise e, w).

Definition bindS {W A B : Type} (m : St W A) (k : A -> St W B) : St W B :=
  fun w =>
    match m w with
    | (Ok a, w') => k a w'
    | (Raise e, w') => (Raise e, w')
    end.

Notation "x <~ m ;; k" := (bindS m (fun x => k))
  (at level 61, m at next level, right associativity).

(** ** [functools.lru_cache] *)

Module Lru.

Section Cache.

Variables K V : Type.
Variable eqb : K -> K -> bool.

(** The entries, most recently used first. *)
Definition cache : Type := list (K * V).

(** The default [maxsize] of [lru_cache()]. *)
Definition maxsize : nat := 128.

Fixpoint find (k : K) (c : cache) : option V :=
  match c with
  | [] => None
  | (k', v) :: c' => if eqb k k' then Some v else find k c'
  end.

Fixpoint remove (k : K) (c : cache) : cache :=
  match c with
  | [] => []
  | (k', v) :: c' => if eqb k k' then c' else (k', v) :: remove k c'
  end.

(** A hit moves the entry to the front. *)
Definition touch (k : K) (v : V) (c : cache) : cache :=
  (k, v) :: remove k c.

(** A miss stores the new result in front and drops the least recently
    used entry when the cache is full. *)
Definition store (k : K) (v : V) (c : cache) : cache :=
  firstn maxsize ((k, v) :: c).

End Cache.

End Lru.

(** ** The diffusion coefficient (class [DRR]) *)

(** One row of the sample array [x] that the integrator hands to the
    batch integrand: a point of the unit hypercube of dimension 5. *)
Record Sample : Type := { u1 : R; u2 : R; u3 : R; u4 : R; u5 : R }.

Module DRR.

Record t : Type := {
  cusp : Cusp;       (* the base class *)
  sma : R;           (* self.sma *)
  j : list R;        (* self.j *)
  omega : list R;    (* self.omega *)
  l_max : Z          (* self.l_max *)
}.

(** [DRR.__init__(sma, **kwargs)] on top of an initialised [Cusp]; [Njs]
    and [l_max] are the keyword arguments it reads itself. *)
Definition __init__ (c : Cusp) (sma : R) (Njs : nat) (l_max : Z) : t :=
  let j := Np.drop_last (Np.logspace (Np.log10 (jlc c sma)) 0 Njs) in
  {| cusp := c;
     sma := sma;
     j := j;
     omega := map (fun x => Rabs (nu_p c sma x)) j;
     l_max := l_max |}.

(** [_res_intrp(ratio)].  The [lru_cache] around it only saves the
    construction, which is a function of [self.omega*ratio]. *)
Definition _res_intrp (self : t) (ratio : R) : result ResInterp.t :=
  ResInterp.__init__ (cusp self) (map (fun w => w * ratio) (omega self)).

(** [_integrand] at one sample point. *)
Definition _integrand (self : t) (j sma_p j_p : R) (lnnp : Lnnp)
           (ta : Anomaly) : R :=
  2 * j_p / Rabs (d_nu_p (cusp self) sma_p j_p) / IZR (lnnp_last lnnp)
  * A2_integrand (sma self) j sma_p j_p lnnp ta.

(** The vectorised call of [_integrand] on the selected sample points. *)
Fixpoint _integrand_batch (self : t) (j : R) (sma_p j_p : list R)
         (lnnp : Lnnp) (ta : list Anomaly) : list R :=
  match sma_p, j_p, ta with
  | a :: sma_p', jp :: j_p', t0 :: ta' =>
      _integrand self j a jp lnnp t0
      :: _integrand_batch self j sma_p' j_p' lnnp ta'
  | _, _, _ => []
  end.

(** [x[:, :-1].T * np.pi] for one sample point. *)
Definition true_anomaly_of (x : Sample) : Anomaly :=
  {| ta1 := u1 x * PI; ta2 := u2 x * PI;
     ta3 := u3 x * PI; ta4 := u4 x * PI |}.

(** The batch integrand [Clnnp] defined inside [_drr]. *)
Definition Clnnp (self : t) (j omega : R) (lnnp : Lnnp) (ratio : R)
           (x : list Sample) : result (list R) :=
  let true_anomaly := map true_anomaly_of x in
  let sma_f := map (fun p => inverse_cumulative_a (cusp self) (u5 p)) x in
  ri1 <- _res_intrp self ratio ;;
  jf1 <- ResInterp.get_jf1 ri1 (omega * ratio) sma_f ;;
  ri2 <- _res_intrp self ratio ;;
  jf2 <- ResInterp.get_jf2 ri2 (omega * ratio) sma_f ;;
  let x0 := Np.zeros (length sma_f) in
  let ix1 := ResInterp.positive jf1 in
  let ix2 := ResInterp.positive jf2 in
  x1 <- Np.assign x0 ix1
          (_integrand_batch self j (Np.select sma_f ix1)
             (Np.select jf1 ix1) lnnp (Np.select true_anomaly ix1)) ;;
  x2 <- Np.assign x1 ix2
          (_integrand_batch self j (Np.select sma_f ix2)
             (Np.select jf2 ix2) lnnp (Np.select true_anomaly ix2)) ;;
  Ok x2.

Section Integration.

(** The state of [vegas] and of the random generator it draws from. *)
Variable V : Type.

(** [vegas.Integrator(5 * [[0, 1]])]: a fresh integrator. *)
Variable vegas_Integrator : V -> V.

(** [integ(func, nitn=10, neval=neval)]: the estimate [(val, var)], or
    the exception the integrand raised. *)
Variable vegas_call :
  (list Sample -> result (list R)) -> R -> V -> result (R * R) * V.

Variable sph_harm_abs : Z -> Z -> R.

(** What the calls below read and write: the integrator, the number of
    Monte Carlo integrations run so far, and the cache of [drr]. *)
Record World : Type := {
  vegas : V;
  mc_runs : nat;
  drr_cache : Lru.cache (Z * Z * Z * option R) (list (R * R))
}.

Definition with_vegas (w : World) (v : V) : World :=
  {| vegas := v; mc_runs := mc_runs w; drr_cache := drr_cache w |}.

Definition with_cache (w : World)
           (c : Lru.cache (Z * Z * Z * option R) (list (R * R))) : World :=
  {| vegas := vegas w; mc_runs := mc_runs w; drr_cache := c |}.

Definition count_run (w : World) : World :=
  {| vegas := vegas w; mc_runs := S (mc_runs w);
     drr_cache := drr_cache w |}.

(** One call [integ(func, nitn=10, neval=neval)]. *)
Definition integ (func : list Sample -> result (list R)) (neval : R)
  : St World (R * R) :=
  fun w =>
    let (r, v) := vegas_call func neval (vegas w) in
    (r, with_vegas w v).

(** [integrate(func, integ, neval)]: a warm-up run whose result is
    dropped, then the measurement; returns [(val, sqrt(var))]. *)
Definition integrate (func : list Sample -> result (list R)) (neval : R)
  : St World (R * R) :=
  fun w =>
    (_ <~ integ func neval ;;
     r <~ integ func neval ;;
     ret (fst r, sqrt (snd r))) (count_run w).

(** [_drr(j, omega, lnnp, neval)]. *)
Definition _drr (self : t) (j omega : R) (lnnp : Lnnp) (neval : R)
  : St World (R * R) :=
  fun w =>
    let w := with_vegas w (vegas_Integrator (vegas w)) in
    if Z.eqb (lnnp_last lnnp) 0 then (Raise ZeroDivisionError, w)
    else
      let ratio := IZR (lnnp_1 lnnp) / IZR (lnnp_last lnnp) in
      (r <~ integrate (Clnnp self j omega lnnp ratio) neval ;;
       let s := _A2_norm_factor sph_harm_abs (l_ lnnp) (n_ lnnp) (np_ lnnp)
       in
       let n2 := IZR (lnnp_1 lnnp ^ 2) in
       ret (fst r * s * n2, snd r * s * n2)) w.

(** The loop of [drr] over [zip(self.j, self.omega, range(self.j.size))],
    one row of the result per grid point. *)
Fixpoint drr_rows (self : t) (js omegas : list R) (lnnp : Lnnp)
         (neval : R) : St World (list (R * R)) :=
  match js, omegas with
  | j_i :: js', omegai :: omegas' =>
      row <~ _drr self j_i omegai lnnp neval ;;
      rows <~ drr_rows self js' omegas' lnnp neval ;;
      ret (row :: rows)
  | _, _ => ret []
  end.

(** The body of [drr], without its cache. *)
Definition drr_body (self : t) (l n n_p : Z) (neval : R)
  : St World (list (R * R)) :=
  drr_rows self (j self) (omega self)
           {| l_ := l; n_ := n; np_ := n_p |} neval.

(** Equality of the cache keys [(l, n, n_p)] or [(l, n, n_p, neval)]. *)
Definition key_eqb (a b : Z * Z * Z * option R) : bool :=
  let '(l1, n1, p1, e1) := a in
  let '(l2, n2, p2, e2) := b in
  Z.eqb l1 l2 && Z.eqb n1 n2 && Z.eqb p1 p2
  && match e1, e2 with
     | None, None => true
     | Some x, Some y => Reqb x y
     | _, _ => false
     end.

(** [drr(l, n, n_p)] or [drr(l, n, n_p, neval)] through [lru_cache]:
    the key is made of the arguments as passed, so an omitted [neval]
    (default [1e3]) and an explicit one are different keys.  A hit
    returns the stored array; a miss runs the body and stores its
    result; an exception stores nothing. *)
Definition drr (self : t) (l n n_p : Z) (neval : option R)
  : St World (list (R * R)) :=
  fun w =>
    let key := (l, n, n_p, neval) in
    match Lru.find _ _ key_eqb key (drr_cache w) with
    | Some v => (Ok v, with_cache w (Lru.touch _ _ key_eqb key v (drr_cache w)))
    | None =>
        let ne := match neval with Some e => e | None => 1000 end in
        match drr_body self l n n_p ne w with
        | (Ok v, w') =>
            (Ok v, with_cache w' (Lru.store _ _ key v (drr_cache w')))
        | (Raise e, w') => (Raise e, w')
        end
    end.

End Integration.

End DRR.

(** ** Keyword arguments and the command line ([DRR.__init__], [cli.py]) *)

Module Kw.

Import String.
Local Open Scope string_scope.

(** A keyword value: a Python int or float. *)
Inductive value : Type :=
| VInt (z : Z)
| VFloat (x : R).

Definition as_float (v : value) : R :=
  match v with
  | VInt z => IZR z
  | VFloat x => x
  end.

(** A dict with string keys, in insertion order. *)
Definition dict : Type := list (string * value).

(** [d.get(k)]. *)
Fixpoint get (k : string) (d : dict) : option value :=
  match d with
  | [] => None
  | (k', v) :: d' => if String.eqb k k' then Some v else get k d'
  end.

(** [d[k] = v]: the value of an existing key is replaced in place, a new
    key is appended. *)
Fixpoint set (k : string) (v : value) (d : dict) : dict :=
  match d with
  | [] => [(k, v)]
  | (k', v') :: d' =>
      if String.eqb k k' then (k, v) :: d' else (k', v') :: set k v d'
  end.

(** [{**d1, **d2}]: the entries of [d2] are written into [d1] in order. *)
Definition merge (d1 d2 : dict) : dict :=
  fold_left (fun d kv => set (fst kv) (snd kv) d) d2 d1.

(** The default keyword arguments of [DRR.__init__]. *)
Definition defaults : dict :=
  [("l_max", VInt 1); ("gamma", VFloat (175 / 100));
   ("mbh", VFloat 4000000); ("mstar", VInt 1);
   ("Njs", VInt 101); ("rh", VInt 2)].

Section Init.

(** [Cusp.__init__(gamma, mbh, mstar, rh)] of [cusp.py]. *)
Variable Cusp_init : R -> R -> R -> R -> Cusp.

(** [DRR.__init__(sma, **kwargs)] from the keyword arguments on.  [None]
    stands for the exceptions Python raises: a missing key, or a sample
    count [Njs] that is not a non-negative integer; an [l_max] that is not
    an integer is outside the model. *)
Definition DRR_init (sma : R) (kwargs : dict) : option DRR.t :=
  let kw := merge defaults kwargs in
  match get "gamma" kw, get "mbh" kw, get "mstar" kw, get "rh" kw,
        get "Njs" kw, get "l_max" kw with
  | Some gamma, Some mbh, Some mstar, Some rh,
    Some (VInt njs), Some (VInt l_max) =>
      if Z.ltb njs 0 then None
      else Some (DRR.__init__
                   (Cusp_init (as_float gamma) (as_float mbh)
                              (as_float mstar) (as_float rh))
                   sma (Z.to_nat njs) l_max)
  | _, _, _, _, _, _ => None
  end.

(** The construction in [main] of [cli.py]:
    [DRR(sma, gamma=gamma, mbh_mass=mbh, star_mass=mstar, rh=rh)].  The
    positional [l_max] of the command line is not passed on. *)
Definition main_drr (sma : R) (l_max : Z) (gamma mstar mbh rh : R)
  : option DRR.t :=
  DRR_init sma [("gamma", VFloat gamma); ("mbh_mass", VFloat mbh);
                ("star_mass", VFloat mstar); ("rh", VFloat rh)].

End Init.

(** The keywords that [DRR.__init__] reads. *)
Definition known (k : string) : bool :=
  existsb (String.eqb k) ["l_max"; "gamma"; "mbh"; "mstar"; "Njs"; "rh"].

End Kw.

(** ** Predicates used in the statements *)

(** A frequency [w] of the table is farther than the tolerance from the
    queried [om]. *)
Definition far_from (om w : R) : Prop := Rabs (w - om) > ResInterp.tol.

(** Shape of a table: some target frequency, one row per axis sample. *)
Definition table_shape (ri : ResInterp.t) : Prop :=
  ResInterp.omega ri <> []
  /\ length (ResInterp._j1 ri) = length (ResInterp._af ri)
  /\ length (ResInterp._j2 ri) = length (ResInterp._af ri).

(** The [i]-th point of [linspace(start, stop, num)], written out. *)
Definition lin_point (start stop : R) (num : nat) (i : nat) : R :=
  start + INR i * ((stop - start) / INR (num - 1)).

(** Order of the interpolation nodes [(x, f)]: by abscissa. *)
Definition key_le (p q : R * R) : Prop := fst p <= fst q.

(** The rows that [ResInterp.__init__] computes for the axis [a]: branch 1
    from the sampled frequencies, branch 2 from their negation, and the test
    [any(nup < 0)] that guards branch 2. *)
Definition row1_of (c : Cusp) (omega : list R) (a : R) : result (list R) :=
  ResInterp.get_j omega (ResInterp.jf_grid c a)
    (map (nu_p c a) (ResInterp.jf_grid c a)).

Definition row2_of (c : Cusp) (omega : list R) (a : R) : result (list R) :=
  ResInterp.get_j omega (ResInterp.jf_grid c a)
    (map Ropp (map (nu_p c a) (ResInterp.jf_grid c a))).

Definition has_negative (c : Cusp) (a : R) : bool :=
  existsb (fun v => Rltb v 0) (map (nu_p c a) (ResInterp.jf_grid c a)).

(** The interpolation nodes of [get_j]: the pairs (frequency, angular
    momentum) with positive frequency, ordered by frequency. *)
Definition get_j_nodes (jf nup : list R) : list (R * R) :=
  Np.sort_by_key (combine (Np.select nup (ResInterp.positive nup))
                          (Np.select jf (ResInterp.positive nup))).

(** All rows of a table have [cols] entries. *)
Definition rows_of_length (cols : nat) (t : list (list R)) : Prop :=
  Forall (fun r => length r = cols) t.


(** The interpolation nodes of [get_jf1] and [get_jf2] for the frequency
    column [i]: the pairs (axis sample, entry) with a positive entry. *)
Definition jf_nodes (self : ResInterp.t) (tbl : list (list R)) (i : nat)
  : list (R * R) :=
  let col := Np.column tbl i in
  combine (Np.select (ResInterp._af self) (ResInterp.positive col))
          (Np.select col (ResInterp.positive col)).

(** Row [k] of the table has a solution (a positive entry) in the
    frequency column [i]. *)
Definition solved_at (tbl : list (list R)) (i k : nat) : Prop :=
  0 < nth i (nth k tbl []) 0.


(** The effect of [x[ix] = self._integrand(...)] with [ix = jf > 0], point
    by point: where the branch has a solution the integrand replaces the
    old value, elsewhere the old value stays. *)
Fixpoint overlay (self : DRR.t) (j : R) (lnnp : Lnnp) (x sma_f jf : list R)
         (ta : list Anomaly) : list R :=
  match x, sma_f, jf, ta with
  | xi :: x', a :: sma_f', jp :: jf', t0 :: ta' =>
      (if Rgtb jp 0 then DRR._integrand self j a jp lnnp t0 else xi)
      :: overlay self j lnnp x' sma_f' jf' ta'
  | _, _, _, _ => []
  end.

(** The value [Clnnp] leaves at one sample point, given the angular momenta
    [jf1] and [jf2] that the two branches returned for it. *)
Definition Clnnp_point (self : DRR.t) (j : R) (lnnp : Lnnp) (p : Sample)
           (jf1 jf2 : R) : R :=
  let a := inverse_cumulative_a (DRR.cusp self) (u5 p) in
  let t0 := DRR.true_anomaly_of p in
  if Rgtb jf2 0 then DRR._integrand self j a jf2 lnnp t0
  else if Rgtb jf1 0 then DRR._integrand self j a jf1 lnnp t0
  else 0.


(** The true anomalies of a sample point with the two phase pairs
    exchanged: phases 1 and 3 (first position of each orbit) with phases 2
    and 4 (second position). *)
Definition swap_positions (ta : Anomaly) : Anomaly :=
  {| ta1 := ta2 ta; ta2 := ta1 ta; ta3 := ta4 ta; ta4 := ta3 ta |}.

(** ** Test doubles

    A cusp with closed-form functions, an integrator that returns a fixed
    estimate without sampling, and the spherical-harmonic moduli at the
    arguments used below.  They instantiate the collaborators of [drr.py]
    wherever a statement is evaluated at a concrete input. *)

Definition toy_cusp_at (g : R) : Cusp :=
  {| rg := 1;
     rh := 10;
     a_gr1 := g;
     jlc := fun _ => 1 / 10;
     nu_p := fun _ j => 1 / 2 - j;
     d_nu_p := fun _ _ => -1;
     nu_p1 := fun _ => 100;
     inverse_cumulative_a := fun u => 1 + 9 * u |}.

(** The critical axis between the first two axis samples. *)
Definition toy_cusp : Cusp := toy_cusp_at (1001 / 1000).

(** The axis samples of the toy cusps, [np.logspace(0, 1, 1000)]. *)
Definition toy_axis : list R :=
  Np.logspace (Np.log10 1) (Np.log10 10) 1000.


(** An integrator double: every call reports the estimate [1] with
    variance [0] and counts itself in its state. *)
Definition fixed_vegas_call
  (func : list Sample -> result (list R)) (neval : R) (v : nat)
  : result (R * R) * nat :=
  (Ok (1, 0), S v).

(** [|Y_3^1|] and [|Y_3^3|] in the orbital plane
    ([|Y_3^1|^2 = 21/(64 pi)], [|Y_3^3|^2 = 35/(64 pi)]). *)
Definition sph_harm_abs_l3 (m l : Z) : R :=
  if (Z.eqb l 3 && Z.eqb (Z.abs m) 1)%bool then sqrt (21 / (64 * PI))
  else if (Z.eqb l 3 && Z.eqb (Z.abs m) 3)%bool then sqrt (35 / (64 * PI))
  else 0.

Definition toy_drr : DRR.t := DRR.__init__ toy_cusp 1 2 3.

Definition toy_world : DRR.World nat :=
  {| DRR.vegas := 0%nat; DRR.mc_runs := 0%nat; DRR.drr_cache := [] |}.

(** The harmonic triple and the sample point used to evaluate the batch
    integrand: [l = 4], [n = 2], [n_p = 4], all phases [0] and the axis
    variable [4/9]. *)
Definition toy_lnnp : Lnnp := {| l_ := 4; n_ := 2; np_ := 4 |}.

Definition toy_sample_point : Sample :=
  {| u1 := 0; u2 := 0; u3 := 0; u4 := 0; u5 := 4 / 9 |}.

(** * Properties *)
Lemma Rltb_true (x y : R) : Rltb x y = true <-> x < y.
Proof. unfold Rltb; destruct (Rlt_dec x y); split; intros; try easy. Qed.

Lemma Rltb_false (x y : R) : Rltb x y = false <-> y <= x.
Proof.
  unfold Rltb; destruct (Rlt_dec x y); split; intros; try easy; lra.
Qed.

Lemma Rgtb_true (x y : R) : Rgtb x y = true <-> x > y.
Proof. unfold Rgtb; rewrite Rltb_true; lra. Qed.

Lemma Rgtb_false (x y : R) : Rgtb x y = false <-> x <= y.
Proof. unfold Rgtb; rewrite Rltb_false; lra. Qed.

Lemma Rleb_true (x y : R) : Rleb x y = true <-> x <= y.
Proof. unfold Rleb; destruct (Rle_dec x y); split; intros; try easy. Qed.

Lemma Rleb_false (x y : R) : Rleb x y = false <-> y < x.
Proof.
  unfold Rleb; destruct (Rle_dec x y); split; intros; try easy; lra.
Qed.

Lemma Reqb_true (x y : R) : Reqb x y = true <-> x = y.
Proof. unfold Reqb; destruct (Req_dec_T x y); split; intros; try easy. Qed.

Lemma Reqb_false (x y : R) : Reqb x y = false <-> x <> y.
Proof. unfold Reqb; destruct (Req_dec_T x y); split; intros; try easy. Qed.


(** ** The coupling integrand and its normalisation *)

Lemma cos_times_opp (t : R) (n : Z) : cos (t * IZR (- n)) = cos (t * IZR n).
Proof.
  rewrite opp_IZR, Ropp_mult_distr_r_reverse. apply cos_neg.
Qed.

(** C10: [A2_integrand] does not change when the temporal index [n] is
    replaced by [-n], nor when [n_p] is replaced by [-n_p]: both enter only
    through the cosines of the true-anomaly phases. *)
Theorem A2_integrand_even_in_n_and_np
  (sma j sma_p j_p : R) (l n n_p : Z) (ta : Anomaly) :
  A2_integrand sma j sma_p j_p {| l_ := l; n_ := - n; np_ := n_p |} ta
  = A2_integrand sma j sma_p j_p {| l_ := l; n_ := n; np_ := n_p |} ta
  /\
  A2_integrand sma j sma_p j_p {| l_ := l; n_ := n; np_ := - n_p |} ta
  = A2_integrand sma j sma_p j_p {| l_ := l; n_ := n; np_ := n_p |} ta.
Proof.
  unfold A2_integrand; cbn [l_ n_ np_].
  split; rewrite !cos_times_opp; reflexivity.
Qed.

(** C7: the normalisation factor is symmetric in [n] and [n_p], and for
    [l = 0], [n = n_p = 0] it is [(4 pi)^2] times the two squared
    spherical-harmonic moduli. *)
Theorem A2_norm_factor_symmetric
  (sph_harm_abs : Z -> Z -> R) (l n n_p : Z) :
  _A2_norm_factor sph_harm_abs l n n_p = _A2_norm_factor sph_harm_abs l n_p n
  /\
  _A2_norm_factor sph_harm_abs 0 0 0
  = (4 * PI) ^ 2 * (sph_harm_abs 0%Z 0%Z ^ 2 * sph_harm_abs 0%Z 0%Z ^ 2).
Proof.
  unfold _A2_norm_factor; split.
  - rewrite (Rmult_comm (sph_harm_abs n l ^ 2)). reflexivity.
  - cbn [Z.mul Z.add]. field.
Qed.

(** ** Scaling of the per-point result *)

Section Scaling.

Variable V : Type.
Variable vegas_Integrator : V -> V.
Variable vegas_call :
  (list Sample -> result (list R)) -> R -> V -> result (R * R) * V.
Variable sph_harm_abs : Z -> Z -> R.

Let World := DRR.World V.

(** C2, as the code has it: when the harmonic ratio [n/n_p] is defined
    and the Monte Carlo integration returns the raw estimate [r], [_drr]
    returns [r] multiplied by the normalisation factor and by [n^2], the
    square of [lnnp[1]]. *)
Theorem drr_point_scaled_by_n_squared
  (self : DRR.t) (j omega : R) (l n n_p : Z) (neval : R)
  (w w2 : World) (r : R * R) :
  n_p <> 0%Z ->
  DRR.integrate V vegas_call
    (DRR.Clnnp self j omega {| l_ := l; n_ := n; np_ := n_p |}
               (IZR n / IZR n_p))
    neval (DRR.with_vegas V w (vegas_Integrator (DRR.vegas V w)))
  = (Ok r, w2) ->
  DRR._drr V vegas_Integrator vegas_call sph_harm_abs self j omega
           {| l_ := l; n_ := n; np_ := n_p |} neval w
  = (Ok (fst r * _A2_norm_factor sph_harm_abs l n n_p * IZR n ^ 2,
         snd r * _A2_norm_factor sph_harm_abs l n n_p * IZR n ^ 2), w2).
Proof.
  intros Hnp Hint.
  unfold DRR._drr, lnnp_last, lnnp_1; cbn [l_ n_ np_].
  destruct (Z.eqb_spec n_p 0) as [E | _]; [contradiction |].
  unfold bindS. rewrite Hint. unfold ret.
  rewrite pow_IZR. reflexivity.
Qed.

End Scaling.

Lemma toy_norm_factor_pos : 0 < _A2_norm_factor sph_harm_abs_l3 3 1 3.
Proof.
  unfold _A2_norm_factor, sph_harm_abs_l3. cbn.
  assert (Hpi := PI_RGT_0).
  assert (H1 : 0 < 21 / (64 * PI)) by (apply Rdiv_lt_0_compat; lra).
  assert (H2 : 0 < 35 / (64 * PI)) by (apply Rdiv_lt_0_compat; lra).
  assert (H3 : 0 < 4 * PI / 7) by lra.
  apply Rdiv_lt_0_compat; [| lra].
  repeat first [ assumption | lra | apply sqrt_lt_R0; assumption
               | apply Rmult_lt_0_compat ].
Qed.

Lemma toy_drr_point_integrate (j omega : R) (lnnp : Lnnp) (ratio neval : R) :
  DRR.integrate nat fixed_vegas_call (DRR.Clnnp toy_drr j omega lnnp ratio)
    neval (DRR.with_vegas nat toy_world 0%nat)
  = (Ok (1, sqrt 0),
     {| DRR.vegas := 2%nat; DRR.mc_runs := 1%nat; DRR.drr_cache := [] |}).
Proof. reflexivity. Qed.

Lemma toy_drr_point_value (j omega neval : R) :
  DRR._drr nat (fun v => v) fixed_vegas_call sph_harm_abs_l3 toy_drr
           j omega {| l_ := 3; n_ := 1; np_ := 3 |} neval toy_world
  = (Ok (1 * _A2_norm_factor sph_harm_abs_l3 3 1 3 * IZR (1 ^ 2),
         sqrt 0 * _A2_norm_factor sph_harm_abs_l3 3 1 3 * IZR (1 ^ 2)),
     {| DRR.vegas := 2%nat; DRR.mc_runs := 1%nat; DRR.drr_cache := [] |}).
Proof. reflexivity. Qed.

(** C2 at a concrete input: [l = 3], [n = 1], [n_p = 3] with the integrator
    double. *)
Lemma drr_point_scaled_by_n_squared_witness :
  DRR._drr nat (fun v => v) fixed_vegas_call sph_harm_abs_l3 toy_drr
           (1 / 10) (2 / 5) {| l_ := 3; n_ := 1; np_ := 3 |} 1000 toy_world
  = (Ok (fst (1, sqrt 0) * _A2_norm_factor sph_harm_abs_l3 3 1 3 * IZR 1 ^ 2,
         snd (1, sqrt 0) * _A2_norm_factor sph_harm_abs_l3 3 1 3 * IZR 1 ^ 2),
     {| DRR.vegas := 2%nat; DRR.mc_runs := 1%nat; DRR.drr_cache := [] |}).
Proof.
  apply (drr_point_scaled_by_n_squared nat (fun v => v) fixed_vegas_call
           sph_harm_abs_l3 toy_drr (1 / 10) (2 / 5) 3 1 3 1000 toy_world).
  - lia.
  - apply toy_drr_point_integrate.
Defined.

(** C2 as stated fails: for [l = 3], [n = 1], [n_p = 3] the raw estimate is
    [1], and the value returned is not the raw estimate times the
    normalisation factor times [n_p^2 = 9]. *)
Lemma drr_point_not_scaled_by_np_squared :
  let lnnp := {| l_ := 3; n_ := 1; np_ := 3 |} in
  let raw := DRR.integrate nat fixed_vegas_call
               (DRR.Clnnp toy_drr (1 / 10) (2 / 5) lnnp (IZR 1 / IZR 3))
               1000 (DRR.with_vegas nat toy_world 0%nat) in
  let out := DRR._drr nat (fun v => v) fixed_vegas_call sph_harm_abs_l3
               toy_drr (1 / 10) (2 / 5) lnnp 1000 toy_world in
  fst raw = Ok (1, sqrt 0)
  /\ fst out <> Ok (1 * _A2_norm_factor sph_harm_abs_l3 3 1 3 * IZR 3 ^ 2,
                    sqrt 0 * _A2_norm_factor sph_harm_abs_l3 3 1 3 * IZR 3 ^ 2).
Proof.
  cbv zeta. split; [reflexivity |].
  rewrite toy_drr_point_value. cbn [fst snd].
  intros H. injection H as Hv _.
  assert (Hpos := toy_norm_factor_pos).
  replace (IZR (1 ^ 2)) with 1 in Hv by (cbn; lra).
  nra.
Qed.

(** ** Masks, selection and nearest-sample lookup *)

Lemma select_map_filter {A : Type} (P : A -> bool) (l : list A) :
  Np.select l (map P l) = filter P l.
Proof.
  induction l as [| x l IH]; cbn; [reflexivity |].
  destruct (P x); rewrite IH; reflexivity.
Qed.

Lemma select_length {A : Type} (l : list A) (m : list bool) :
  length l = length m -> length (Np.select l m) = Np.count_true m.
Proof.
  revert m; induction l as [| x l IH]; intros [| b m] H; cbn in *;
    try reflexivity; try discriminate.
  injection H as H. destruct b; cbn; rewrite IH by assumption; reflexivity.
Qed.

Lemma argmin_from_spec (l : list R) (best : R) (ibest i : nat) (pre : list R) :
  length pre = i ->
  (ibest < i)%nat ->
  nth ibest pre 0 = best ->
  Forall (fun x => best <= x) pre ->
  let k := Np.argmin_from best ibest i l in
  (k < length (pre ++ l))%nat
  /\ Forall (fun x => nth k (pre ++ l) 0 <= x) (pre ++ l).
Proof.
  revert best ibest i pre.
  induction l as [| x l IH]; intros best ibest i pre Hlen Hlt Hnth Hall; cbn.
  - rewrite app_nil_r. split; [lia |]. rewrite Hnth. exact Hall.
  - replace (pre ++ x :: l) with ((pre ++ [x]) ++ l)
      by (rewrite <- app_assoc; reflexivity).
    destruct (Rltb x best) eqn:E.
    + apply Rltb_true in E. apply IH.
      * rewrite length_app; cbn; lia.
      * lia.
      * rewrite app_nth2 by lia. rewrite Hlen, Nat.sub_diag. reflexivity.
      * apply Forall_app; split.
        -- eapply Forall_impl; [| exact Hall]. cbn; intros; lra.
        -- constructor; [lra | constructor].
    + apply Rltb_false in E. apply IH.
      * rewrite length_app; cbn; lia.
      * lia.
      * rewrite app_nth1 by lia. exact Hnth.
      * apply Forall_app; split; [exact Hall |].
        constructor; [exact E | constructor].
Qed.

Lemma argmin_spec (l : list R) :
  l <> [] ->
  exists k, Np.argmin l = Ok k
            /\ (k < length l)%nat
            /\ Forall (fun x => nth k l 0 <= x) l.
Proof.
  destruct l as [| x l]; [congruence | intros _].
  exists (Np.argmin_from x 0 1 l). split; [reflexivity |].
  apply (argmin_from_spec l x 0%nat 1%nat [x]); cbn; try lia; try reflexivity.
  constructor; [lra | constructor].
Qed.

Lemma nth_map_in_range {A : Type} (f : A -> R) (l : list A) (d : A) (k : nat) :
  (k < length l)%nat -> nth k (map f l) 0 = f (nth k l d).
Proof.
  intros H. rewrite (nth_indep _ 0 (f d)) by (rewrite length_map; exact H).
  apply map_nth.
Qed.

Lemma column_length (t : list (list R)) (i : nat) :
  length (Np.column t i) = length t.
Proof. apply length_map. Qed.

(** The lookup of [get_jf1] and [get_jf2]: raise exactly when every table
    frequency is far from the query. *)
Lemma get_jf_far (self : ResInterp.t) (tbl : list (list R)) (om : R)
      (af : list R) :
  ResInterp.omega self <> [] ->
  Forall (far_from om) (ResInterp.omega self) ->
  ResInterp.get_jf self tbl om af = Raise ValueError.
Proof.
  intros Hne Hfar. unfold ResInterp.get_jf.
  destruct (argmin_spec (map (fun w => Rabs (w - om)) (ResInterp.omega self)))
    as (k & -> & Hk & _).
  { destruct (ResInterp.omega self); [congruence | discriminate]. }
  cbn [bind]. rewrite length_map in Hk.
  assert (Hin : far_from om (nth k (ResInterp.omega self) 0)).
  { rewrite Forall_forall in Hfar. apply Hfar, nth_In, Hk. }
  apply Rgtb_true in Hin. rewrite Hin. reflexivity.
Qed.

Lemma get_jf_near (self : ResInterp.t) (tbl : list (list R)) (om : R)
      (af : list R) :
  ResInterp.omega self <> [] ->
  length tbl = length (ResInterp._af self) ->
  ~ Forall (far_from om) (ResInterp.omega self) ->
  exists v, ResInterp.get_jf self tbl om af = Ok v.
Proof.
  intros Hne Hlen Hnear. unfold ResInterp.get_jf.
  destruct (argmin_spec (map (fun w => Rabs (w - om)) (ResInterp.omega self)))
    as (k & -> & Hk & Hmin).
  { destruct (ResInterp.omega self); [congruence | discriminate]. }
  cbn [bind]. rewrite length_map in Hk.
  rewrite (nth_map_in_range _ _ 0) in Hmin by exact Hk.
  destruct (Rgtb _ ResInterp.tol) eqn:E.
  - exfalso. apply Hnear. apply Rgtb_true in E.
    rewrite Forall_forall in Hmin |- *. intros w Hw. unfold far_from.
    specialize (Hmin (Rabs (w - om))).
    assert (Rabs (nth k (ResInterp.omega self) 0 - om) <= Rabs (w - om)).
    { apply Hmin. apply in_map_iff. exists w; split; [reflexivity | exact Hw]. }
    lra.
  - destruct (Nat.ltb_spec 0
                (Np.count_true (ResInterp.positive (Np.column tbl k))))
      as [Hpos | _]; [| eexists; reflexivity].
    set (m := ResInterp.positive (Np.column tbl k)) in *.
    assert (Hm : length m = length (ResInterp._af self)).
    { unfold m, ResInterp.positive. rewrite length_map, column_length.
      exact Hlen. }
    assert (H1 : length (Np.select (ResInterp._af self) m) = Np.count_true m)
      by (apply select_length; symmetry; exact Hm).
    assert (H2 : length (Np.select (Np.column tbl k) m) = Np.count_true m).
    { apply select_length. unfold m, ResInterp.positive.
      rewrite length_map. reflexivity. }
    destruct (combine _ _) as [| p0 rest] eqn:Ec.
    + apply (f_equal (@length _)) in Ec. rewrite length_combine in Ec.
      cbn in Ec. lia.
    + eexists; reflexivity.
Qed.

(** ** What the construction of a table establishes *)

Lemma bind_ok {A B : Type} (m : result A) (k : A -> result B) (b : B) :
  bind m k = Ok b -> exists a, m = Ok a /\ k a = Ok b.
Proof. destruct m; cbn; [eauto | discriminate]. Qed.

Lemma set_row_length (t : list (list R)) (i : nat) (row : list R)
      (t' : list (list R)) :
  Np.set_row t i row = Ok t' -> length t' = length t.
Proof.
  revert i t'; induction t as [| r t IH]; intros i t' H; cbn in H.
  - discriminate.
  - destruct i.
    + destruct (Nat.eqb _ _); [| discriminate]. injection H as <-. reflexivity.
    + apply bind_ok in H as (t'' & H1 & H2). injection H2 as <-.
      cbn. f_equal. eapply IH; eassumption.
Qed.

(** The loops, one iteration unfolded. *)
Lemma fill_below_cons (c : Cusp) (omega : list R) (a : R) (rows : list R)
      (i : nat) (j1 : list (list R)) :
  ResInterp.fill_below c omega (a :: rows) i j1
  = (row <- row1_of c omega a ;;
     j1' <- Np.set_row j1 i row ;;
     ResInterp.fill_below c omega rows (S i) j1').
Proof. unfold row1_of. reflexivity. Qed.

Lemma fill_above_cons (c : Cusp) (omega : list R) (a : R) (rows : list R)
      (i last : nat) (j12 : list (list R) * list (list R)) :
  ResInterp.fill_above c omega (a :: rows) i last j12
  = (row1 <- row1_of c omega a ;;
     j1' <- Np.set_row (fst j12) (i + last) row1 ;;
     j2' <- (if has_negative c a
             then row2 <- row2_of c omega a ;;
                  Np.set_row (snd j12) (i + last) row2
             else Ok (snd j12)) ;;
     ResInterp.fill_above c omega rows (S i) last (j1', j2')).
Proof. unfold row1_of, row2_of, has_negative. reflexivity. Qed.

Lemma fill_below_length (c : Cusp) (omega rows : list R) (i : nat)
      (j1 j1' : list (list R)) :
  ResInterp.fill_below c omega rows i j1 = Ok j1' -> length j1' = length j1.
Proof.
  revert i j1; induction rows as [| a rows IH]; intros i j1 H.
  - injection H as <-. reflexivity.
  - rewrite fill_below_cons in H.
    apply bind_ok in H as (row & _ & H).
    apply bind_ok in H as (t & Hs & H).
    apply IH in H. apply set_row_length in Hs. congruence.
Qed.

Lemma fill_above_length (c : Cusp) (omega rows : list R) (i last : nat)
      (j12 j12' : list (list R) * list (list R)) :
  ResInterp.fill_above c omega rows i last j12 = Ok j12' ->
  length (fst j12') = length (fst j12)
  /\ length (snd j12') = length (snd j12).
Proof.
  revert i j12; induction rows as [| a rows IH]; intros i j12 H.
  - injection H as <-. split; reflexivity.
  - rewrite fill_above_cons in H.
    apply bind_ok in H as (row1 & _ & H).
    apply bind_ok in H as (t1 & Hs1 & H).
    apply bind_ok in H as (t2 & Hs2 & H).
    apply IH in H as [H1 H2]. cbn [fst snd] in *.
    apply set_row_length in Hs1. split; [congruence |].
    rewrite H2. destruct (has_negative c a).
    + apply bind_ok in Hs2 as (row2 & _ & Hs2).
      apply set_row_length in Hs2. exact Hs2.
    + injection Hs2 as <-. reflexivity.
Qed.

(** The pieces of a successful [ResInterp.__init__]. *)
Lemma init_inv (c : Cusp) (omega : list R) (ri : ResInterp.t) :
  ResInterp.__init__ c omega = Ok ri ->
  exists omax a_min j1,
    let af0 := Np.logspace (Np.log10 (rg c)) (Np.log10 (rh c)) 1000 in
    let af := Np.logspace (Np.log10 a_min) (Np.log10 (rh c)) 1000 in
    let below := Np.select af (map (fun a => Rltb a (a_gr1 c)) af) in
    let above := Np.select af (map (fun a => Rgtb a (a_gr1 c)) af) in
    Np.amax omega = Ok omax
    /\ Np.amax (Np.select af0
                  (map (fun a => Rltb a (a_gr1 c) && Rltb omax (nu_p1 c a))
                       af0)) = Ok a_min
    /\ ResInterp.omega ri = omega
    /\ ResInterp._af ri = af
    /\ below <> []
    /\ ResInterp.fill_below c omega below 0
         (Np.zeros2 (length af) (length omega)) = Ok j1
    /\ ResInterp.fill_above c omega above 0 (length below)
         (j1, Np.zeros2 (length af) (length omega))
       = Ok (ResInterp._j1 ri, ResInterp._j2 ri).
Proof.
  unfold ResInterp.__init__. intros H.
  apply bind_ok in H as (omax & Homax & H).
  apply bind_ok in H as (a_min & Hamin & H).
  apply bind_ok in H as (j1 & Hj1 & H).
  apply bind_ok in H as (last & Hlast & H).
  apply bind_ok in H as (j12 & Hj12 & H).
  injection H as <-.
  exists omax, a_min, j1. cbv zeta.
  split; [exact Homax |]. split; [exact Hamin |].
  split; [reflexivity |]. split; [reflexivity |].
  destruct (Np.select _ (map (fun a => Rltb a (a_gr1 c)) _))
    as [| b0 bs] eqn:Eb; [discriminate |].
  injection Hlast as <-.
  split; [discriminate |]. split; [exact Hj1 |].
  destruct j12 as [t1 t2]. exact Hj12.
Qed.

Lemma zeros2_length (r k : nat) : length (Np.zeros2 r k) = r.
Proof. apply repeat_length. Qed.

Lemma init_shape (c : Cusp) (omega : list R) (ri : ResInterp.t) :
  ResInterp.__init__ c omega = Ok ri ->
  ResInterp.omega ri = omega /\ table_shape ri.
Proof.
  intros H. apply init_inv in H.
  destruct H as (omax & a_min & j1 & Homax & _ & Hom & Haf & _ & Hb & Ha).
  split; [exact Hom |]. unfold table_shape. rewrite Hom, Haf.
  apply fill_below_length in Hb. apply fill_above_length in Ha as [H1 H2].
  cbn [fst snd] in *. rewrite zeros2_length in *.
  split; [| split; congruence].
  destruct omega; [discriminate Homax | discriminate].
Qed.

Lemma far_from_dec (om : R) (omega : list R) :
  {Forall (far_from om) omega} + {~ Forall (far_from om) omega}.
Proof.
  apply Forall_dec. intros w. unfold far_from. apply Rgt_dec.
Qed.

(** C4: on a constructed table, [get_jf1] and [get_jf2] raise [ValueError]
    exactly when the queried frequency is farther than [1e-8] from every
    frequency of the construction array (that is, from the nearest one);
    otherwise they return. *)
Theorem get_jf_raises_iff_far
  (c : Cusp) (omega0 : list R) (ri : ResInterp.t) (om : R) (af : list R) :
  ResInterp.__init__ c omega0 = Ok ri ->
  (Forall (far_from om) omega0 <-> ResInterp.get_jf1 ri om af = Raise ValueError)
  /\ (Forall (far_from om) omega0
      <-> ResInterp.get_jf2 ri om af = Raise ValueError)
  /\ (~ Forall (far_from om) omega0 ->
      (exists v, ResInterp.get_jf1 ri om af = Ok v)
      /\ (exists v, ResInterp.get_jf2 ri om af = Ok v)).
Proof.
  intros Hinit. apply init_shape in Hinit as (Hom & Hne & Hl1 & Hl2).
  rewrite <- Hom. unfold ResInterp.get_jf1, ResInterp.get_jf2.
  assert (N1 : ~ Forall (far_from om) (ResInterp.omega ri) ->
               exists v, ResInterp.get_jf ri (ResInterp._j1 ri) om af = Ok v)
    by (apply get_jf_near; assumption).
  assert (N2 : ~ Forall (far_from om) (ResInterp.omega ri) ->
               exists v, ResInterp.get_jf ri (ResInterp._j2 ri) om af = Ok v)
    by (apply get_jf_near; assumption).
  repeat split.
  - apply get_jf_far; assumption.
  - intros HR. destruct (far_from_dec om (ResInterp.omega ri)) as [F | F];
      [exact F |]. destruct (N1 F) as [v Hv]. congruence.
  - apply get_jf_far; assumption.
  - intros HR. destruct (far_from_dec om (ResInterp.omega ri)) as [F | F];
      [exact F |]. destruct (N2 F) as [v Hv]. congruence.
  - apply N1; assumption.
  - apply N2; assumption.
Qed.

(** ** Logarithmic grids *)

Lemma ln10_pos : 0 < ln 10.
Proof. rewrite <- ln_1. apply ln_increasing; lra. Qed.


Lemma pow10_0 : Np.pow10 0 = 1.
Proof. unfold Np.pow10. apply Rpower_O. lra. Qed.

Lemma pow10_pos (y : R) : 0 < Np.pow10 y.
Proof. unfold Np.pow10, Rpower. apply exp_pos. Qed.

Lemma pow10_lt (y z : R) : y < z -> Np.pow10 y < Np.pow10 z.
Proof. intros H. unfold Np.pow10. apply Rpower_lt; lra. Qed.



Lemma log10_lt (x y : R) : 0 < x -> x < y -> Np.log10 x < Np.log10 y.
Proof.
  intros H0 H1. unfold Np.log10.
  assert (ln x < ln y) by (apply ln_increasing; lra).
  assert (H10 := ln10_pos).
  apply Rmult_lt_compat_r; [apply Rinv_0_lt_compat, H10 | assumption].
Qed.

(** Values at which the logarithm and the power are exact. *)

Lemma log10_1 : Np.log10 1 = 0.
Proof. unfold Np.log10. rewrite ln_1. unfold Rdiv. apply Rmult_0_l. Qed.

Lemma log10_10 : Np.log10 10 = 1.
Proof. unfold Np.log10. field. apply Rgt_not_eq, ln10_pos. Qed.

Lemma log10_tenth : Np.log10 (1 / 10) = -1.
Proof.
  unfold Np.log10. replace (1 / 10) with (/ 10) by lra.
  rewrite ln_Rinv by lra. field. apply Rgt_not_eq, ln10_pos.
Qed.

Lemma pow10_plus (x y : R) : Np.pow10 (x + y) = Np.pow10 x * Np.pow10 y.
Proof. unfold Np.pow10. apply Rpower_plus. Qed.

Lemma pow10_1 : Np.pow10 1 = 10.
Proof. unfold Np.pow10. apply Rpower_1. lra. Qed.

Lemma pow10_m1 : Np.pow10 (-1) = 1 / 10.
Proof.
  assert (H : Np.pow10 (-1) * Np.pow10 1 = 1).
  { rewrite <- pow10_plus. replace (-1 + 1) with 0 by lra. apply pow10_0. }
  rewrite pow10_1 in H. lra.
Qed.

Lemma removelast_map_seq {A : Type} (f : nat -> A) (a n : nat) :
  removelast (map f (seq a (S n))) = map f (seq a n).
Proof.
  rewrite seq_S, map_app. cbn [map]. apply removelast_last.
Qed.

Lemma linspace_points (start stop : R) (n : nat) :
  Np.linspace start stop (S (S n))
  = map (lin_point start stop (S (S n))) (seq 0 (S n)) ++ [stop].
Proof.
  unfold Np.linspace, Np.linspace_raw.
  rewrite (removelast_map_seq _ 0 (S n)). reflexivity.
Qed.

Lemma logspace_points (start stop : R) (n : nat) :
  Np.logspace start stop (S (S n))
  = map (fun i => Np.pow10 (lin_point start stop (S (S n)) i)) (seq 0 (S n))
    ++ [Np.pow10 stop].
Proof.
  unfold Np.logspace. rewrite linspace_points, map_app, map_map. reflexivity.
Qed.

Lemma logspace_drop_last (start stop : R) (n : nat) :
  Np.drop_last (Np.logspace start stop (S (S n)))
  = map (fun i => Np.pow10 (lin_point start stop (S (S n)) i)) (seq 0 (S n)).
Proof.
  unfold Np.drop_last. rewrite logspace_points. apply removelast_last.
Qed.

Lemma lin_point_0 (start stop : R) (num : nat) :
  lin_point start stop num 0 = start.
Proof. unfold lin_point. cbn [INR]. ring. Qed.

Lemma lin_point_last (start stop : R) (n : nat) :
  lin_point start stop (S (S n)) (S n) = stop.
Proof.
  unfold lin_point. replace (S (S n) - 1)%nat with (S n) by lia.
  field. apply not_0_INR. lia.
Qed.

Lemma lin_point_lt (start stop : R) (n i k : nat) :
  start < stop -> (i < k)%nat ->
  lin_point start stop (S (S n)) i < lin_point start stop (S (S n)) k.
Proof.
  intros Hs Hik. unfold lin_point.
  replace (S (S n) - 1)%nat with (S n) by lia.
  assert (Hn : 0 < INR (S n)) by (apply lt_0_INR; lia).
  assert (Hstep : 0 < (stop - start) / INR (S n))
    by (apply Rdiv_lt_0_compat; lra).
  apply lt_INR in Hik. nra.
Qed.

Lemma map_seq_sorted (f : nat -> R) (a n : nat) :
  (forall i k, (i < k)%nat -> f i < f k) ->
  StronglySorted Rlt (map f (seq a n)).
Proof.
  intros Hf. revert a; induction n as [| n IH]; intros a; cbn.
  - constructor.
  - constructor; [apply IH |].
    apply Forall_forall. intros y Hy.
    apply in_map_iff in Hy as (k & <- & Hk). apply in_seq in Hk.
    apply Hf. lia.
Qed.

(** ** The test-orbit grid *)






(** ** Construction failure *)

Lemma filter_none {A : Type} (P : A -> bool) (l : list A) :
  (forall x, In x l -> P x = false) -> filter P l = [].
Proof.
  induction l as [| x l IH]; intros H; cbn; [reflexivity |].
  rewrite (H x) by (left; reflexivity).
  apply IH. intros y Hy. apply H. right; exact Hy.
Qed.

(** C9: when no sample [a] of the 1000 log-spaced axis points between
    [r_g] and [r_h] has both [a < a_gr1] and [max(omega) < nu_p1(a)], the
    construction raises ([ValueError], from the maximum of an empty
    selection) and builds no table. *)
Theorem init_raises_without_axis_below_critical
  (c : Cusp) (omega : list R) :
  (forall omax a,
      Np.amax omega = Ok omax ->
      In a (Np.logspace (Np.log10 (rg c)) (Np.log10 (rh c)) 1000) ->
      ~ (a < a_gr1 c /\ omax < nu_p1 c a)) ->
  ResInterp.__init__ c omega = Raise ValueError.
Proof.
  intros H. unfold ResInterp.__init__.
  destruct (Np.amax omega) as [omax | e] eqn:Eo.
  - cbn [bind]. rewrite select_map_filter, filter_none; [reflexivity |].
    intros a Ha. specialize (H omax a eq_refl Ha).
    destruct (Rltb a (a_gr1 c)) eqn:E1; [| reflexivity].
    destruct (Rltb omax (nu_p1 c a)) eqn:E2; [| reflexivity].
    apply Rltb_true in E1, E2. tauto.
  - destruct omega; [| discriminate Eo]. injection Eo as <-. reflexivity.
Qed.

(** C9 at a concrete input: the target frequency [100] is not below the
    critical curve of the toy cusp ([nu_p1 = 100]) at any axis. *)
Lemma init_raises_without_axis_below_critical_witness :
  ResInterp.__init__ toy_cusp [100] = Raise ValueError.
Proof.
  apply (init_raises_without_axis_below_critical toy_cusp [100]).
  intros omax a Ho _ [_ Hlt]. injection Ho as <-.
  cbn [nu_p1 toy_cusp toy_cusp_at] in Hlt. lra.
Defined.

(** ** Memoisation of [drr] *)


Section LruFacts.

Variables K V : Type.
Variable eqb : K -> K -> bool.
Hypothesis eqb_refl : forall k, eqb k k = true.




End LruFacts.

Section Memo.

Variable V : Type.
Variable vegas_Integrator : V -> V.
Variable vegas_call :
  (list Sample -> result (list R)) -> R -> V -> result (R * R) * V.
Variable sph_harm_abs : Z -> Z -> R.

Let drr := DRR.drr V vegas_Integrator vegas_call sph_harm_abs.



End Memo.


(** ** Sorting the interpolation nodes *)

Lemma insert_by_key_in (p q : R * R) (l : list (R * R)) :
  In q (Np.insert_by_key p l) <-> q = p \/ In q l.
Proof.
  induction l as [| r l IH]; cbn.
  - intuition congruence.
  - destruct (Rleb (fst p) (fst r)); cbn; [intuition congruence |].
    rewrite IH. intuition congruence.
Qed.

Lemma sort_by_key_in (q : R * R) (l : list (R * R)) :
  In q (Np.sort_by_key l) <-> In q l.
Proof.
  induction l as [| p l IH]; cbn; [tauto |].
  rewrite insert_by_key_in, IH. intuition congruence.
Qed.

Lemma insert_by_key_sorted (p : R * R) (l : list (R * R)) :
  StronglySorted key_le l -> StronglySorted key_le (Np.insert_by_key p l).
Proof.
  induction l as [| r l IH]; intros Hs; cbn.
  - repeat constructor.
  - inversion Hs as [| ? ? Hs' Hall]; subst.
    destruct (Rleb (fst p) (fst r)) eqn:E.
    + apply Rleb_true in E. constructor; [exact Hs |].
      constructor; [exact E |].
      eapply Forall_impl; [| exact Hall]. unfold key_le; intros; lra.
    + apply Rleb_false in E. constructor; [apply IH, Hs' |].
      apply Forall_forall. intros q Hq. apply insert_by_key_in in Hq as [-> | Hq].
      * unfold key_le; lra.
      * rewrite Forall_forall in Hall. apply Hall, Hq.
Qed.

Lemma sort_by_key_sorted (l : list (R * R)) :
  StronglySorted key_le (Np.sort_by_key l).
Proof.
  induction l as [| p l IH]; cbn; [constructor |].
  apply insert_by_key_sorted, IH.
Qed.

Lemma sorted_head_le (p0 q : R * R) (rest : list (R * R)) :
  StronglySorted key_le (p0 :: rest) -> In q (p0 :: rest) -> fst p0 <= fst q.
Proof.
  intros Hs [<- | Hq]; [lra |].
  inversion Hs as [| ? ? _ Hall]; subst.
  rewrite Forall_forall in Hall. apply Hall, Hq.
Qed.

Lemma sorted_le_last (p0 q : R * R) (rest : list (R * R)) :
  StronglySorted key_le (p0 :: rest) -> In q (p0 :: rest) ->
  fst q <= fst (last rest p0).
Proof.
  revert p0 q; induction rest as [| r rest IH]; intros p0 q Hs Hq.
  - destruct Hq as [<- | []]. cbn. lra.
  - inversion Hs as [| ? ? Hs' Hall]; subst.
    assert (Hlast : last (r :: rest) p0 = last rest r).
    { clear. revert r; induction rest as [| r' rest IH]; intros r;
        [reflexivity |]. cbn in *. destruct rest; [reflexivity | apply IH]. }
    rewrite Hlast. destruct Hq as [<- | Hq].
    + apply Rle_trans with (fst r).
      * inversion Hall; assumption.
      * apply IH; [exact Hs' | left; reflexivity].
    + apply IH; assumption.
Qed.

(** ** Linear interpolation *)



(** When the node values are an affine function of the abscissae, the
    interpolant is that function. *)
Lemma interp_scan_affine (al be : R) (rest : list (R * R)) (x x0 f0 : R) :
  x0 <= x ->
  x <= fst (last rest (x0, f0)) ->
  f0 = al * x0 + be ->
  Forall (fun p => snd p = al * fst p + be) rest ->
  Np.interp_scan x x0 f0 rest = al * x + be.
Proof.
  revert x0 f0; induction rest as [| [x1 f1] rest IH];
    intros x0 f0 Hx Hlast Hf Hall; cbn [Np.interp_scan].
  - cbn in Hlast. assert (E : x = x0) by lra. rewrite E. exact Hf.
  - apply Forall_cons_iff in Hall as [Hf1 Hall']. cbn [fst snd] in Hf1.
    assert (Hl : last ((x1, f1) :: rest) (x0, f0) = last rest (x1, f1)).
    { clear. generalize (x1, f1) as r. generalize (x0, f0) as d.
      induction rest as [| r' rest IH]; intros d r; [reflexivity |].
      cbn in *. destruct rest; [reflexivity | apply IH]. }
    rewrite Hl in Hlast.
    destruct (Rleb x1 x) eqn:E1.
    + apply Rleb_true in E1. apply IH; assumption.
    + apply Rleb_false in E1.
      destruct (Reqb x0 x) eqn:E2.
      * apply Reqb_true in E2. rewrite <- E2. exact Hf.
      * apply Reqb_false in E2. rewrite Hf1, Hf. field. lra.
Qed.

Lemma interp_at_affine (al be : R) (x : R) (p0 : R * R)
      (rest : list (R * R)) (left right : R) :
  StronglySorted key_le (p0 :: rest) ->
  Forall (fun p => snd p = al * fst p + be) (p0 :: rest) ->
  (exists q, In q (p0 :: rest) /\ fst q <= x) ->
  (exists q, In q (p0 :: rest) /\ x <= fst q) ->
  Np.interp_at x p0 rest left right = al * x + be.
Proof.
  intros Hs Hall (q1 & Hq1 & Hlo) (q2 & Hq2 & Hhi).
  assert (H1 := sorted_head_le p0 q1 rest Hs Hq1).
  assert (H2 := sorted_le_last p0 q2 rest Hs Hq2).
  inversion Hall as [| ? ? H0 Hrest]; subst.
  unfold Np.interp_at.
  destruct (Rltb x (fst p0)) eqn:E1; [apply Rltb_true in E1; lra |].
  destruct (Rltb (fst (last rest p0)) x) eqn:E2; [apply Rltb_true in E2; lra |].
  destruct p0 as [x0 f0]. cbn [fst snd] in *.
  apply interp_scan_affine; try assumption; lra.
Qed.

(** ** The rows of the table *)

Lemma get_j_nodes_in (jf nup : list R) (x f : R) :
  In (x, f) (get_j_nodes jf nup) <-> In (x, f) (combine nup jf) /\ x > 0.
Proof.
  unfold get_j_nodes. rewrite sort_by_key_in. unfold ResInterp.positive.
  revert jf; induction nup as [| v nup IH]; intros jf.
  - cbn. tauto.
  - destruct jf as [| w jf].
    + cbn. destruct (Rgtb v 0); cbn;
        destruct (Np.select nup _); cbn; tauto.
    + cbn [map Np.select combine].
      destruct (Rgtb v 0) eqn:E; cbn [combine In]; rewrite IH.
      * apply Rgtb_true in E. split.
        -- intros [H | [H1 H2]]; [injection H as <- <-; tauto | tauto].
        -- intros [[H | H] Hx]; [left; exact H | right; tauto].
      * apply Rgtb_false in E. split.
        -- intros [H1 H2]; tauto.
        -- intros [[H | H] Hx]; [injection H as <- <-; lra | tauto].
Qed.

Lemma get_j_unfold (omega jf nup : list R) :
  ResInterp.get_j omega jf nup = Np.interp omega (get_j_nodes jf nup) 0 0.
Proof. reflexivity. Qed.


(** [get_j] returns as soon as one sampled frequency is positive. *)
Lemma get_j_ok (omega jf nup : list R) (x f : R) :
  In (x, f) (combine nup jf) -> x > 0 ->
  exists row, ResInterp.get_j omega jf nup = Ok row.
Proof.
  intros Hin Hx. rewrite get_j_unfold. unfold Np.interp.
  destruct (get_j_nodes jf nup) as [| p0 rest] eqn:En.
  - assert (H : In (x, f) (get_j_nodes jf nup))
      by (apply get_j_nodes_in; tauto).
    rewrite En in H. destruct H.
  - eexists. reflexivity.
Qed.

(** When the sampled angular momenta are an affine function of the sampled
    frequencies, a row holds that function of each target frequency that
    lies between two positive sampled frequencies. *)
Lemma get_j_affine (al be : R) (omega jf nup : list R) :
  (forall x f, In (x, f) (combine nup jf) -> f = al * x + be) ->
  omega <> [] ->
  Forall (fun w =>
            (exists x f, In (x, f) (combine nup jf) /\ 0 < x <= w)
            /\ (exists x f, In (x, f) (combine nup jf) /\ 0 < x /\ w <= x))
         omega ->
  ResInterp.get_j omega jf nup = Ok (map (fun w => al * w + be) omega).
Proof.
  intros Haff Hne Hrange. rewrite get_j_unfold. unfold Np.interp.
  destruct (get_j_nodes jf nup) as [| p0 rest] eqn:En.
  - destruct omega as [| w omega]; [congruence |].
    inversion Hrange as [| ? ? [(x & f & Hin & Hx) _] _]; subst.
    assert (H : In (x, f) (get_j_nodes jf nup))
      by (apply get_j_nodes_in; split; [exact Hin | lra]).
    rewrite En in H. destruct H.
  - f_equal. apply map_ext_in. intros w Hw.
    rewrite Forall_forall in Hrange.
    destruct (Hrange w Hw) as [(x1 & f1 & Hin1 & Hx1) (x2 & f2 & Hin2 & Hx2)].
    apply interp_at_affine.
    + rewrite <- En. apply sort_by_key_sorted.
    + apply Forall_forall. intros [x f] Hp. rewrite <- En in Hp.
      apply get_j_nodes_in in Hp as [Hp _]. cbn. apply Haff, Hp.
    + exists (x1, f1). rewrite <- En. split; [| cbn; lra].
      apply get_j_nodes_in. split; [exact Hin1 | lra].
    + exists (x2, f2). rewrite <- En. split; [| cbn; lra].
      apply get_j_nodes_in. split; [exact Hin2 | lra].
Qed.

(** ** The loops of the construction, row by row *)

Lemma set_row_nth (t : list (list R)) (i : nat) (row : list R)
      (t' : list (list R)) :
  Np.set_row t i row = Ok t' ->
  (i < length t)%nat
  /\ forall k d, nth k t' d = if Nat.eqb k i then row else nth k t d.
Proof.
  revert i t'; induction t as [| r t IH]; intros i t' H; cbn in H;
    [discriminate |].
  destruct i as [| i].
  - destruct (Nat.eqb _ _); [| discriminate]. injection H as <-.
    split; [cbn; lia |]. intros [| k] d; reflexivity.
  - apply bind_ok in H as (t'' & H1 & H2). injection H2 as <-.
    destruct (IH _ _ H1) as [Hi Hn]. split; [cbn; lia |].
    intros [| k] d; [reflexivity |]. cbn [nth]. rewrite Hn. reflexivity.
Qed.

Lemma set_row_ok (t : list (list R)) (i : nat) (row : list R) :
  (i < length t)%nat ->
  length (nth i t []) = length row ->
  exists t', Np.set_row t i row = Ok t'.
Proof.
  revert i; induction t as [| r t IH]; intros i Hi Hl; cbn in Hi; [lia |].
  destruct i as [| i]; cbn in *.
  - rewrite Hl, Nat.eqb_refl. eexists; reflexivity.
  - destruct (IH i) as [t' Ht]; [lia | exact Hl |].
    rewrite Ht. eexists; reflexivity.
Qed.

Lemma fill_below_nth (c : Cusp) (omega rows : list R) (i : nat)
      (j1 j1' : list (list R)) :
  ResInterp.fill_below c omega rows i j1 = Ok j1' ->
  (i + length rows <= length j1 \/ rows = [])%nat
  /\ forall k d,
      ((k < i \/ i + length rows <= k)%nat -> nth k j1' d = nth k j1 d)
      /\ ((i <= k < i + length rows)%nat ->
          row1_of c omega (nth (k - i) rows 0) = Ok (nth k j1' d)).
Proof.
  revert i j1; induction rows as [| a rows IH]; intros i j1 H.
  - injection H as <-. split; [right; reflexivity |].
    intros k d. split; [reflexivity | cbn [length]; lia].
  - rewrite fill_below_cons in H.
    apply bind_ok in H as (row & Hrow & H).
    apply bind_ok in H as (t & Hs & H).
    destruct (set_row_nth _ _ _ _ Hs) as [Hi Hn].
    assert (Hlen := set_row_length _ _ _ _ Hs).
    destruct (IH _ _ H) as [Hb Hk]. split.
    { left. cbn [length]. destruct Hb as [Hb | ->]; cbn [length]; lia. }
    intros k d. destruct (Hk k d) as [Hout Hin]. cbn [length]. split.
    + intros Hr. rewrite Hout by lia. rewrite Hn.
      destruct (Nat.eqb_spec k i); [lia | reflexivity].
    + intros Hr. destruct (Nat.eq_dec k i) as [-> | Hne].
      * rewrite Nat.sub_diag. cbn [nth]. rewrite Hout by lia.
        rewrite Hn, Nat.eqb_refl. exact Hrow.
      * replace (k - i)%nat with (S (k - S i)) by lia. cbn [nth].
        apply Hin. lia.
Qed.

Lemma fill_above_nth (c : Cusp) (omega rows : list R) (i last : nat)
      (j12 j12' : list (list R) * list (list R)) :
  ResInterp.fill_above c omega rows i last j12 = Ok j12' ->
  forall k d,
    ((k < i + last \/ i + last + length rows <= k)%nat ->
     nth k (fst j12') d = nth k (fst j12) d
     /\ nth k (snd j12') d = nth k (snd j12) d)
    /\ ((i + last <= k < i + last + length rows)%nat ->
        let a := nth (k - (i + last)) rows 0 in
        row1_of c omega a = Ok (nth k (fst j12') d)
        /\ (if has_negative c a
            then row2_of c omega a = Ok (nth k (snd j12') d)
            else nth k (snd j12') d = nth k (snd j12) d)).
Proof.
  revert i j12; induction rows as [| a rows IH]; intros i j12 H.
  - injection H as <-. intros k d.
    split; [intros _; split; reflexivity | cbn [length]; lia].
  - rewrite fill_above_cons in H.
    apply bind_ok in H as (row1 & Hrow1 & H).
    apply bind_ok in H as (t1 & Hs1 & H).
    apply bind_ok in H as (t2 & Hs2 & H).
    destruct (set_row_nth _ _ _ _ Hs1) as [_ Hn1].
    assert (Hn2 : forall k d,
               nth k t2 d
               = if (Nat.eqb k (i + last) && has_negative c a)%bool
                 then nth k t2 d else nth k (snd j12) d).
    { intros k d. destruct (has_negative c a).
      - apply bind_ok in Hs2 as (row2 & _ & Hs2).
        destruct (set_row_nth _ _ _ _ Hs2) as [_ Hn].
        rewrite Hn. destruct (Nat.eqb k (i + last)); reflexivity.
      - injection Hs2 as <-. rewrite andb_false_r. reflexivity. }
    intros k d. destruct (IH _ _ H k d) as [Hout Hin].
    cbn [fst snd length] in *. split.
    + intros Hr. destruct Hout as [-> ->]; [lia |].
      rewrite Hn1, Hn2.
      destruct (Nat.eqb_spec k (i + last)); [lia |]. split; reflexivity.
    + intros Hr. cbv zeta.
      destruct (Nat.eq_dec k (i + last)) as [-> | Hne].
      * rewrite Nat.sub_diag. cbn [nth].
        destruct Hout as [-> ->]; [lia |].
        rewrite Hn1, Nat.eqb_refl. split; [exact Hrow1 |].
        destruct (has_negative c a) eqn:En.
        -- apply bind_ok in Hs2 as (row2 & Hrow2 & Hs2).
           destruct (set_row_nth _ _ _ _ Hs2) as [_ Hn].
           rewrite Hn, Nat.eqb_refl. exact Hrow2.
        -- injection Hs2 as <-. reflexivity.
      * replace (k - (i + last))%nat with (S (k - (S i + last))) by lia.
        cbn [nth]. destruct Hin as [Hr1 Hr2]; [lia |].
        split; [exact Hr1 |].
        destruct (has_negative c (nth (k - (S i + last)) rows 0));
          [exact Hr2 |].
        rewrite Hr2, Hn2.
        destruct (Nat.eqb_spec k (i + last)); [lia | reflexivity].
Qed.

(** ** The table after construction *)

Lemma nth_zeros2 (r k n : nat) (d : list R) :
  (n < r)%nat -> nth n (Np.zeros2 r k) d = Np.zeros k.
Proof.
  intros H. unfold Np.zeros2.
  rewrite (nth_indep _ d (Np.zeros k)) by (rewrite repeat_length; exact H).
  apply nth_repeat.
Qed.

(** Row by row: the first [last] rows hold branch 1 of the samples below
    [a_gr1] and no branch 2; the next rows hold the samples above [a_gr1],
    with branch 2 where a sampled frequency is negative; the remaining rows
    are never written. *)
Lemma init_rows (c : Cusp) (omega : list R) (ri : ResInterp.t) :
  ResInterp.__init__ c omega = Ok ri ->
  let af := ResInterp._af ri in
  let below := filter (fun a => Rltb a (a_gr1 c)) af in
  let above := filter (fun a => Rgtb a (a_gr1 c)) af in
  let last := length below in
  let zero := Np.zeros2 (length af) (length omega) in
  forall k d,
    ((k < last)%nat ->
     row1_of c omega (nth k below 0) = Ok (nth k (ResInterp._j1 ri) d)
     /\ nth k (ResInterp._j2 ri) d = nth k zero d)
    /\ ((last <= k < last + length above)%nat ->
        let a := nth (k - last) above 0 in
        row1_of c omega a = Ok (nth k (ResInterp._j1 ri) d)
        /\ (if has_negative c a
            then row2_of c omega a = Ok (nth k (ResInterp._j2 ri) d)
            else nth k (ResInterp._j2 ri) d = nth k zero d))
    /\ ((last + length above <= k)%nat ->
        nth k (ResInterp._j1 ri) d = nth k zero d
        /\ nth k (ResInterp._j2 ri) d = nth k zero d).
Proof.
  intros H. apply init_inv in H.
  destruct H as (omax & a_min & j1 & _ & _ & Hom & Haf & Hne & Hb & Ha).
  cbv zeta in *. rewrite Haf. rewrite !select_map_filter in *.
  set (af := Np.logspace (Np.log10 a_min) (Np.log10 (rh c)) 1000) in *.
  set (below := filter (fun a => Rltb a (a_gr1 c)) af) in *.
  set (above := filter (fun a => Rgtb a (a_gr1 c)) af) in *.
  intros k d.
  destruct (fill_below_nth _ _ _ _ _ _ Hb) as [_ Hbk].
  destruct (Hbk k d) as [Hbout Hbin].
  destruct (fill_above_nth _ _ _ _ _ _ _ Ha k d) as [Haout Hain].
  cbn [fst snd] in *. rewrite Nat.add_0_l in *.
  split; [| split].
  - intros Hk. destruct Haout as [E1 E2]; [lia |]. rewrite E1, E2.
    split; [| reflexivity].
    rewrite <- (Nat.sub_0_r k) at 1. apply Hbin. lia.
  - intros Hk. apply Hain. exact Hk.
  - intros Hk. destruct Haout as [E1 E2]; [lia |]. rewrite E1, E2.
    split; [| reflexivity]. apply Hbout. lia.
Qed.

(** ** More on the grids *)

Lemma linspace_length (start stop : R) (num : nat) :
  length (Np.linspace start stop num) = num.
Proof.
  destruct num as [| [| n]]; [reflexivity | reflexivity |].
  rewrite linspace_points, length_app, length_map, length_seq. cbn. lia.
Qed.

Lemma logspace_length (start stop : R) (num : nat) :
  length (Np.logspace start stop num) = num.
Proof. unfold Np.logspace. rewrite length_map. apply linspace_length. Qed.

(** With the end point written as the last point of the progression. *)
Lemma logspace_as_map (start stop : R) (n : nat) :
  Np.logspace start stop (S (S n))
  = map (fun i => Np.pow10 (lin_point start stop (S (S n)) i))
        (seq 0 (S (S n))).
Proof.
  rewrite logspace_points, (seq_S (S n) 0), map_app. cbn [map Nat.add].
  rewrite lin_point_last. reflexivity.
Qed.

Lemma logspace_nth (start stop : R) (n k : nat) :
  (k < S (S n))%nat ->
  nth k (Np.logspace start stop (S (S n))) 0
  = Np.pow10 (lin_point start stop (S (S n)) k).
Proof.
  intros Hk. rewrite logspace_as_map.
  rewrite (nth_map_in_range _ _ 0%nat) by (rewrite length_seq; exact Hk).
  rewrite seq_nth by exact Hk. reflexivity.
Qed.

Lemma logspace_increasing (start stop : R) (n : nat) :
  start < stop -> StronglySorted Rlt (Np.logspace start stop (S (S n))).
Proof.
  intros H. rewrite logspace_as_map. apply map_seq_sorted.
  intros i k Hik. apply pow10_lt, lin_point_lt; assumption.
Qed.


Lemma sorted_lt_le (l : list R) : StronglySorted Rlt l -> StronglySorted Rle l.
Proof.
  induction 1 as [| x l Hs IH Hall]; constructor; [exact IH |].
  eapply Forall_impl; [| exact Hall]. cbn; intros; lra.
Qed.




Lemma amax_spec (l : list R) (m : R) :
  Np.amax l = Ok m -> In m l /\ Forall (fun x => x <= m) l.
Proof.
  destruct l as [| x l]; [discriminate |]. cbn. intros H. injection H as <-.
  revert x; induction l as [| y l IH]; intros x; cbn.
  - split; [left; reflexivity | constructor; [lra | constructor]].
  - destruct (IH (Rmax x y)) as [Hin Hall].
    inversion Hall as [| ? ? Hxy Hall']; subst.
    assert (Hx := Rmax_l x y). assert (Hy := Rmax_r x y).
    split.
    + destruct Hin as [Hin | Hin]; [| right; right; exact Hin].
      rewrite <- Hin. unfold Rmax. destruct (Rle_dec x y); tauto.
    + constructor; [lra |]. constructor; [lra | exact Hall'].
Qed.

(** ** When the construction returns *)

Lemma get_j_length (omega jf nup row : list R) :
  ResInterp.get_j omega jf nup = Ok row -> length row = length omega.
Proof.
  rewrite get_j_unfold. unfold Np.interp.
  destruct (get_j_nodes jf nup); [discriminate |].
  intros H. injection H as <-. apply length_map.
Qed.

Lemma in_combine_map (g : R -> R) (jf : list R) (v : R) :
  In v (map g jf) -> exists f, In (v, f) (combine (map g jf) jf).
Proof.
  induction jf as [| x jf IH]; cbn; [tauto |].
  intros [<- | H]; [exists x; left; reflexivity |].
  destruct (IH H) as [f Hf]. exists f. right; exact Hf.
Qed.

Lemma in_combine_map_self (g : R -> R) (jf : list R) (x : R) :
  In x jf -> In (g x, x) (combine (map g jf) jf).
Proof.
  induction jf as [| y jf IH]; cbn; [tauto |].
  intros [-> | H]; [left; reflexivity | right; apply IH, H].
Qed.

Lemma combine_map_self_in (g : R -> R) (jf : list R) (x f : R) :
  In (x, f) (combine (map g jf) jf) -> x = g f /\ In f jf.
Proof.
  induction jf as [| y jf IH]; cbn; [tauto |].
  intros [H | H]; [injection H as <- <-; tauto |].
  destruct (IH H); tauto.
Qed.

(** Branch 2 is computed only where it can be: a negative sampled
    frequency is a positive one after negation. *)
Lemma row2_of_ok (c : Cusp) (omega : list R) (a : R) :
  has_negative c a = true -> exists row, row2_of c omega a = Ok row.
Proof.
  unfold has_negative, row2_of. intros H.
  apply existsb_exists in H as (v & Hv & Hneg). apply Rltb_true in Hneg.
  rewrite map_map.
  destruct (in_combine_map (fun x => - nu_p c a x) (ResInterp.jf_grid c a)
              (- v)) as [f Hf].
  { apply in_map_iff in Hv as (x & <- & Hx). apply in_map_iff.
    exists x. split; [reflexivity | exact Hx]. }
  apply (get_j_ok omega _ _ (- v) f Hf). lra.
Qed.

Lemma set_row_rows (cols : nat) (t : list (list R)) (i : nat)
      (row : list R) (t' : list (list R)) :
  rows_of_length cols t -> length row = cols ->
  Np.set_row t i row = Ok t' -> rows_of_length cols t'.
Proof.
  unfold rows_of_length.
  revert i t'; induction t as [| r t IH]; intros i t' Ht Hrow H; cbn in H;
    [discriminate |].
  inversion Ht as [| ? ? Hr Ht']; subst.
  destruct i as [| i].
  - destruct (Nat.eqb _ _); [| discriminate]. injection H as <-.
    constructor; [reflexivity | exact Ht'].
  - apply bind_ok in H as (t'' & H1 & H2). injection H2 as <-.
    constructor; [exact Hr |]. eapply IH; eauto.
Qed.

Lemma set_row_total (cols : nat) (t : list (list R)) (i : nat)
      (row : list R) :
  rows_of_length cols t -> length row = cols -> (i < length t)%nat ->
  exists t', Np.set_row t i row = Ok t' /\ rows_of_length cols t'.
Proof.
  intros Ht Hrow Hi.
  destruct (set_row_ok t i row Hi) as [t' Hs].
  - unfold rows_of_length in Ht. rewrite Forall_forall in Ht.
    rewrite Hrow. apply Ht, nth_In, Hi.
  - exists t'. split; [exact Hs |]. eapply set_row_rows; eauto.
Qed.

Lemma row1_of_length (c : Cusp) (omega : list R) (a : R) (row : list R) :
  row1_of c omega a = Ok row -> length row = length omega.
Proof. unfold row1_of. apply get_j_length. Qed.

Lemma row2_of_length (c : Cusp) (omega : list R) (a : R) (row : list R) :
  row2_of c omega a = Ok row -> length row = length omega.
Proof. unfold row2_of. apply get_j_length. Qed.

Lemma bind_Ok {A B : Type} (a : A) (k : A -> result B) :
  bind (Ok a) k = k a.
Proof. reflexivity. Qed.

Lemma fill_below_ok (c : Cusp) (omega rows : list R) (i : nat)
      (j1 : list (list R)) :
  (forall a, In a rows -> exists row, row1_of c omega a = Ok row) ->
  (i + length rows <= length j1)%nat ->
  rows_of_length (length omega) j1 ->
  exists j1', ResInterp.fill_below c omega rows i j1 = Ok j1'
              /\ rows_of_length (length omega) j1'.
Proof.
  revert i j1; induction rows as [| a rows IH]; intros i j1 Hrow Hlen Hj1.
  - exists j1. split; [reflexivity | exact Hj1].
  - rewrite fill_below_cons. cbn [length] in Hlen.
    destruct (Hrow a) as [row Hr]; [left; reflexivity |].
    rewrite Hr. rewrite bind_Ok.
    destruct (set_row_total (length omega) j1 i row) as (t & Hs & Ht);
      [exact Hj1 | eapply row1_of_length; exact Hr | lia |].
    rewrite Hs. rewrite bind_Ok.
    apply IH; [| | exact Ht].
    + intros a' Ha'. apply Hrow. right; exact Ha'.
    + apply set_row_length in Hs. lia.
Qed.

Lemma fill_above_ok (c : Cusp) (omega rows : list R) (i last : nat)
      (j1 j2 : list (list R)) :
  (forall a, In a rows -> exists row, row1_of c omega a = Ok row) ->
  (i + last + length rows <= length j1)%nat ->
  length j2 = length j1 ->
  rows_of_length (length omega) j1 ->
  rows_of_length (length omega) j2 ->
  exists j12, ResInterp.fill_above c omega rows i last (j1, j2) = Ok j12.
Proof.
  revert i j1 j2; induction rows as [| a rows IH];
    intros i j1 j2 Hrow Hlen Hl2 Hj1 Hj2.
  - eexists. reflexivity.
  - rewrite fill_above_cons. cbn [length fst snd] in *.
    destruct (Hrow a) as [row Hr]; [left; reflexivity |].
    rewrite Hr. rewrite bind_Ok.
    destruct (set_row_total (length omega) j1 (i + last) row) as (t1 & Hs1 & Ht1);
      [exact Hj1 | eapply row1_of_length; exact Hr | lia |].
    rewrite Hs1. rewrite bind_Ok.
    assert (H2 : exists t2,
               (if has_negative c a
                then row2 <- row2_of c omega a ;;
                     Np.set_row j2 (i + last) row2
                else Ok j2) = Ok t2
               /\ rows_of_length (length omega) t2
               /\ length t2 = length j2).
    { destruct (has_negative c a) eqn:En.
      - destruct (row2_of_ok c omega a En) as [row2 Hr2].
        rewrite Hr2. rewrite bind_Ok.
        destruct (set_row_total (length omega) j2 (i + last) row2)
          as (t2 & Hs2 & Ht2);
          [exact Hj2 | eapply row2_of_length; exact Hr2 | lia |].
        exists t2. split; [exact Hs2 |]. split; [exact Ht2 |].
        eapply set_row_length; exact Hs2.
      - exists j2. repeat split. exact Hj2. }
    destruct H2 as (t2 & -> & Ht2 & Hlt2). rewrite bind_Ok.
    apply set_row_length in Hs1.
    apply IH; try assumption.
    + intros a' Ha'. apply Hrow. right; exact Ha'.
    + lia.
    + lia.
Qed.

Lemma filter_disjoint_length {A : Type} (P Q : A -> bool) (l : list A) :
  (forall x, P x = true -> Q x = false) ->
  (length (filter P l) + length (filter Q l) <= length l)%nat.
Proof.
  intros H. induction l as [| x l IH]; cbn; [lia |].
  destruct (P x) eqn:E; [rewrite (H x E) |]; [| destruct (Q x)]; cbn; lia.
Qed.

Lemma zeros2_rows (r k : nat) : rows_of_length k (Np.zeros2 r k).
Proof.
  unfold rows_of_length, Np.zeros2. apply Forall_forall.
  intros x Hx. apply repeat_spec in Hx. subst. apply repeat_length.
Qed.

(** [ResInterp.__init__] returns a table when the frequency array is not
    empty, some axis sample passes the mask, the first sample
    [10 ** log10(a_min)] of the new axis grid is still below [a_gr1] (so
    that the first loop runs and binds [last]), and every axis has a
    positive sampled frequency. *)
Lemma init_ok (c : Cusp) (omega : list R) (omax a0 : R) :
  Np.amax omega = Ok omax ->
  In a0 (Np.logspace (Np.log10 (rg c)) (Np.log10 (rh c)) 1000) ->
  a0 < a_gr1 c -> omax < nu_p1 c a0 ->
  (forall a, In a (Np.logspace (Np.log10 (rg c)) (Np.log10 (rh c)) 1000) ->
             a < a_gr1 c -> omax < nu_p1 c a ->
             Np.pow10 (Np.log10 a) < a_gr1 c) ->
  (forall a, exists row, row1_of c omega a = Ok row) ->
  exists ri, ResInterp.__init__ c omega = Ok ri.
Proof.
  intros Homax Ha0 Hlt Hnu Hround Hrows. unfold ResInterp.__init__.
  rewrite Homax, bind_Ok. rewrite !select_map_filter.
  set (af0 := Np.logspace (Np.log10 (rg c)) (Np.log10 (rh c)) 1000) in *.
  set (P := fun a => Rltb a (a_gr1 c) && Rltb omax (nu_p1 c a)).
  assert (Hsel : In a0 (filter P af0)).
  { apply filter_In. split; [exact Ha0 |]. unfold P.
    apply andb_true_iff. split; apply Rltb_true; assumption. }
  destruct (Np.amax (filter P af0)) as [a_min | e] eqn:Ea.
  2:{ destruct (filter P af0); [destruct Hsel | discriminate Ea]. }
  rewrite bind_Ok. cbv zeta. rewrite !select_map_filter.
  apply amax_spec in Ea as [Hin _]. apply filter_In in Hin as [Hin HP].
  unfold P in HP. apply andb_true_iff in HP as [HP HP2].
  apply Rltb_true in HP, HP2.
  set (af := Np.logspace (Np.log10 a_min) (Np.log10 (rh c)) 1000).
  set (below := filter (fun a => Rltb a (a_gr1 c)) af).
  fold af. set (above := filter (fun a => Rgtb a (a_gr1 c)) af).
  assert (Hlen : length af = 1000%nat) by apply logspace_length.
  assert (Hb : In (Np.pow10 (Np.log10 a_min)) below).
  { apply filter_In.
    split; [| apply Rltb_true, (Hround a_min Hin HP HP2)].
    rewrite <- (lin_point_0 (Np.log10 a_min) (Np.log10 (rh c)) 1000).
    rewrite <- (logspace_nth _ _ 998 0) by lia.
    apply nth_In. fold af. lia. }
  assert (Hcount : (length below + length above <= length af)%nat).
  { apply filter_disjoint_length. intros x Hx.
    apply Rltb_true in Hx. apply Rgtb_false. lra. }
  destruct (fill_below_ok c omega below 0
              (Np.zeros2 (length af) (length omega)))
    as (j1 & Hj1 & Hr1).
  { intros a _. apply Hrows. }
  { rewrite zeros2_length. lia. }
  { apply zeros2_rows. }
  rewrite Hj1, bind_Ok.
  destruct below as [| b0 bs] eqn:Eb; [destruct Hb |].
  rewrite bind_Ok.
  destruct (fill_above_ok c omega above 0 (length (b0 :: bs)) j1
              (Np.zeros2 (length af) (length omega)))
    as (j12 & Hj12).
  { intros a _. apply Hrows. }
  { apply fill_below_length in Hj1. rewrite Hj1, zeros2_length. lia. }
  { apply fill_below_length in Hj1. rewrite Hj1. reflexivity. }
  { exact Hr1. }
  { apply zeros2_rows. }
  rewrite Hj12, bind_Ok. eexists. reflexivity.
Qed.

(** ** The toy cusps, evaluated *)

(** [10^(-1/2)], [10^(-1/4)] and [10^(-1/8)], bracketed. *)
Lemma pow10_m_half : 3 / 10 <= Np.pow10 (-1 / 2) < 32 / 100.
Proof.
  assert (Hp := pow10_pos (-1 / 2)).
  assert (H : Np.pow10 (-1 / 2) * Np.pow10 (-1 / 2) = 1 / 10).
  { rewrite <- pow10_plus. replace (-1 / 2 + -1 / 2) with (-1) by lra.
    apply pow10_m1. }
  split; nra.
Qed.

Lemma pow10_m_quarter : 1 / 2 < Np.pow10 (-1 / 4) < 57 / 100.
Proof.
  assert (Hp := pow10_pos (-1 / 4)). assert (Hh := pow10_m_half).
  assert (H : Np.pow10 (-1 / 4) * Np.pow10 (-1 / 4) = Np.pow10 (-1 / 2)).
  { rewrite <- pow10_plus. f_equal. lra. }
  split; nra.
Qed.

Lemma pow10_m_eighth : 7 / 10 < Np.pow10 (-1 / 8) < 1.
Proof.
  assert (Hp := pow10_pos (-1 / 8)). assert (Hq := pow10_m_quarter).
  assert (H : Np.pow10 (-1 / 8) * Np.pow10 (-1 / 8) = Np.pow10 (-1 / 4)).
  { rewrite <- pow10_plus. f_equal. lra. }
  split; nra.
Qed.

Lemma toy_jf_grid (g a : R) :
  ResInterp.jf_grid (toy_cusp_at g) a
  = map (fun i => Np.pow10 (-1 + INR i / 1000)) (seq 0 1000).
Proof.
  unfold ResInterp.jf_grid. cbn [jlc toy_cusp_at].
  rewrite log10_tenth. rewrite (logspace_drop_last (-1) 0 999).
  apply map_ext. intros i. f_equal. unfold lin_point.
  replace (INR (1001 - 1)) with 1000
    by (rewrite INR_IZR_INZ; reflexivity).
  lra.
Qed.

Lemma toy_jf_sample (g a : R) (k : nat) (y : R) :
  (k < 1000)%nat -> y = -1 + INR k / 1000 ->
  In (Np.pow10 y) (ResInterp.jf_grid (toy_cusp_at g) a).
Proof.
  intros Hk ->. rewrite toy_jf_grid. apply in_map_iff.
  exists k. split; [reflexivity |]. apply in_seq. lia.
Qed.

Lemma INR_numeral (n : nat) : INR n = IZR (Z.of_nat n).
Proof. apply INR_IZR_INZ. Qed.

Ltac toy_sample k :=
  apply (toy_jf_sample _ _ k);
  [ lia
  | rewrite (INR_numeral k);
    let z := eval compute in (Z.of_nat k) in
    change (Z.of_nat k) with z; lra ].

Lemma toy_nu_p (g a : R) : nu_p (toy_cusp_at g) a = fun j => 1 / 2 - j.
Proof. reflexivity. Qed.

(** Branch 1 of the toy cusps: [nu_p = 1/2 - j] is positive below
    [j = 1/2], so the target [w] is met at [j = 1/2 - w]. *)
Lemma toy_row1 (g a w : R) :
  1 / 5 <= w <= 2 / 5 ->
  row1_of (toy_cusp_at g) [w] a = Ok [1 / 2 - w].
Proof.
  intros Hw. unfold row1_of. rewrite toy_nu_p.
  replace (1 / 2 - w) with (-1 * w + 1 / 2) by lra.
  apply (get_j_affine (-1) (1 / 2) [w]).
  - intros x f H. apply combine_map_self_in in H as [-> _]. lra.
  - discriminate.
  - constructor; [| constructor]. split.
    + exists (1 / 2 - Np.pow10 (-1 / 2)), (Np.pow10 (-1 / 2)).
      split; [| assert (H := pow10_m_half); lra].
      apply (in_combine_map_self (fun j => 1 / 2 - j)). toy_sample 500%nat.
    + exists (1 / 2 - Np.pow10 (-1)), (Np.pow10 (-1)).
      split; [| rewrite pow10_m1; lra].
      apply (in_combine_map_self (fun j => 1 / 2 - j)). toy_sample 0%nat.
Qed.

(** Branch 2: after negation the frequency [j - 1/2] is positive above
    [j = 1/2], and the target [w] is met at [j = 1/2 + w]. *)
Lemma toy_row2 (g a w : R) :
  7 / 100 <= w <= 1 / 5 ->
  row2_of (toy_cusp_at g) [w] a = Ok [1 / 2 + w].
Proof.
  intros Hw. unfold row2_of. rewrite toy_nu_p, map_map.
  replace (1 / 2 + w) with (1 * w + 1 / 2) by lra.
  apply (get_j_affine 1 (1 / 2) [w]).
  - intros x f H. apply combine_map_self_in in H as [-> _]. lra.
  - discriminate.
  - constructor; [| constructor]. split.
    + exists (- (1 / 2 - Np.pow10 (-1 / 4))), (Np.pow10 (-1 / 4)).
      split; [| assert (H := pow10_m_quarter); lra].
      apply (in_combine_map_self (fun j => - (1 / 2 - j))). toy_sample 750%nat.
    + exists (- (1 / 2 - Np.pow10 (-1 / 8))), (Np.pow10 (-1 / 8)).
      split; [| assert (H := pow10_m_eighth); lra].
      apply (in_combine_map_self (fun j => - (1 / 2 - j))). toy_sample 875%nat.
Qed.

Lemma toy_has_negative (g a : R) : has_negative (toy_cusp_at g) a = true.
Proof.
  unfold has_negative. rewrite toy_nu_p. apply existsb_exists.
  exists (1 / 2 - Np.pow10 (-1 / 4)). split.
  - apply in_map_iff. exists (Np.pow10 (-1 / 4)).
    split; [reflexivity |]. toy_sample 750%nat.
  - apply Rltb_true. assert (H := pow10_m_quarter). lra.
Qed.

Lemma toy_row1_ok (g w a : R) :
  exists row, row1_of (toy_cusp_at g) [w] a = Ok row.
Proof.
  unfold row1_of. rewrite toy_nu_p.
  apply (get_j_ok [w] _ _ (1 / 2 - Np.pow10 (-1)) (Np.pow10 (-1))).
  - apply (in_combine_map_self (fun j => 1 / 2 - j)). toy_sample 0%nat.
  - rewrite pow10_m1. lra.
Qed.

(** The axis samples of the toy cusps. *)
Lemma toy_axis_increasing : StronglySorted Rlt toy_axis.
Proof.
  unfold toy_axis. apply (logspace_increasing _ _ 998).
  rewrite log10_1, log10_10. lra.
Qed.

Lemma toy_axis_length : length toy_axis = 1000%nat.
Proof. apply logspace_length. Qed.

Lemma toy_axis_0 : nth 0 toy_axis 0 = 1.
Proof.
  unfold toy_axis. rewrite (logspace_nth _ _ 998 0) by lia.
  rewrite lin_point_0, log10_1. apply pow10_0.
Qed.

Lemma ln10_gt_1 : 1 < ln 10.
Proof.
  rewrite <- (ln_exp 1). apply ln_increasing; [apply exp_pos |].
  assert (H := exp_le_3). lra.
Qed.

Lemma toy_axis_1 : 1001 / 1000 < nth 1 toy_axis 0.
Proof.
  unfold toy_axis. rewrite (logspace_nth _ _ 998 1) by lia.
  unfold lin_point. rewrite log10_1, log10_10.
  replace (INR (1000 - 1)) with 999 by (rewrite INR_IZR_INZ; reflexivity).
  replace (INR 1) with 1 by reflexivity.
  unfold Np.pow10, Rpower.
  assert (H1 := ln10_gt_1).
  assert (H2 : (0 + 1 * ((1 - 0) / 999)) * ln 10 <> 0) by nra.
  apply exp_ineq1 in H2. nra.
Qed.

(** The samples split as the first, the second, and those beyond. *)
Lemma toy_axis_split :
  exists tl, toy_axis = nth 0 toy_axis 0 :: nth 1 toy_axis 0 :: tl
             /\ length tl = 998%nat
             /\ nth 0 toy_axis 0 < nth 1 toy_axis 0
             /\ Forall (fun a => nth 1 toy_axis 0 < a) tl.
Proof.
  assert (Hs := toy_axis_increasing). assert (Hl := toy_axis_length).
  destruct toy_axis as [| s0 [| s1 tl]]; cbn [length] in Hl; try lia.
  exists tl. cbn [nth]. split; [reflexivity |]. split; [lia |].
  inversion Hs as [| ? ? Hs' H0]; subst.
  inversion Hs' as [| ? ? _ H1]; subst.
  inversion H0; subst. split; assumption.
Qed.

Lemma filter_all {A : Type} (P : A -> bool) (l : list A) :
  (forall x, In x l -> P x = true) -> filter P l = l.
Proof.
  induction l as [| x l IH]; intros H; cbn; [reflexivity |].
  rewrite (H x) by (left; reflexivity). f_equal.
  apply IH. intros y Hy. apply H. right; exact Hy.
Qed.

(** The samples below and above a critical axis [g] that lies after the
    first sample and not after the second. *)
Lemma toy_below (g : R) :
  1 < g <= nth 1 toy_axis 0 ->
  filter (fun a => Rltb a g) toy_axis = [1].
Proof.
  intros [Hg1 Hg2]. destruct toy_axis_split as (tl & E & _ & H01 & Htl).
  rewrite E. rewrite toy_axis_0 in *. cbn [filter].
  replace (Rltb 1 g) with true by (symmetry; apply Rltb_true; lra).
  replace (Rltb (nth 1 toy_axis 0) g) with false
    by (symmetry; apply Rltb_false; lra).
  f_equal. apply filter_none. intros x Hx.
  rewrite Forall_forall in Htl. apply Htl in Hx. apply Rltb_false. lra.
Qed.

Lemma toy_above_length (g : R) :
  1 < g <= nth 1 toy_axis 0 ->
  length (filter (fun a => Rgtb a g) toy_axis)
  = if Rltb g (nth 1 toy_axis 0) then 999%nat else 998%nat.
Proof.
  intros [Hg1 Hg2]. destruct toy_axis_split as (tl & E & Hl & H01 & Htl).
  rewrite E at 1. rewrite toy_axis_0 in *. cbn [filter].
  replace (Rgtb 1 g) with false by (symmetry; apply Rgtb_false; lra).
  assert (Ht : filter (fun a => Rgtb a g) tl = tl).
  { apply filter_all. intros x Hx. rewrite Forall_forall in Htl.
    apply Htl in Hx. apply Rgtb_true. lra. }
  unfold Rgtb at 1. destruct (Rltb g (nth 1 toy_axis 0));
    cbn [length]; rewrite Ht; lia.
Qed.

Lemma toy_mask (g w : R) :
  1 < g <= nth 1 toy_axis 0 -> w < 100 ->
  filter (fun a => Rltb a g && Rltb w 100) toy_axis = [1].
Proof.
  intros Hg Hw. rewrite <- (toy_below g Hg). apply filter_ext.
  intros a. replace (Rltb w 100) with true
    by (symmetry; apply Rltb_true; exact Hw).
  apply andb_true_r.
Qed.

Lemma toy_init (g w : R) :
  1 < g <= nth 1 toy_axis 0 -> w < 100 ->
  exists ri,
    ResInterp.__init__ (toy_cusp_at g) [w] = Ok ri
    /\ ResInterp.omega ri = [w]
    /\ ResInterp._af ri = toy_axis
    /\ forall k d,
        let n := if Rltb g (nth 1 toy_axis 0) then 999%nat else 998%nat in
        ((k < 1 + n)%nat ->
         exists a, row1_of (toy_cusp_at g) [w] a
                   = Ok (nth k (ResInterp._j1 ri) d))
        /\ ((k < 1)%nat -> nth k (ResInterp._j2 ri) d = [0])
        /\ ((1 <= k < 1 + n)%nat ->
            exists a, row2_of (toy_cusp_at g) [w] a
                      = Ok (nth k (ResInterp._j2 ri) d))
        /\ ((1 + n <= k < 1000)%nat ->
            nth k (ResInterp._j1 ri) d = [0]
            /\ nth k (ResInterp._j2 ri) d = [0]).
Proof.
  intros Hg Hw.
  destruct (init_ok (toy_cusp_at g) [w] w 1) as [ri Hri].
  - reflexivity.
  - change (In 1 toy_axis). rewrite <- toy_axis_0. apply nth_In.
    rewrite toy_axis_length. lia.
  - cbn [a_gr1 toy_cusp_at]. lra.
  - cbn [nu_p1 toy_cusp_at]. exact Hw.
  - intros a Ha Hlt _. change (In a toy_axis) in Ha.
    cbn [a_gr1 toy_cusp_at] in Hlt |- *.
    assert (Hin : In a (filter (fun a => Rltb a g) toy_axis))
      by (apply filter_In; split; [exact Ha | apply Rltb_true, Hlt]).
    rewrite (toy_below g Hg) in Hin. destruct Hin as [<- | []].
    rewrite log10_1, pow10_0. lra.
  - intros a. apply toy_row1_ok.
  - exists ri. split; [exact Hri |].
    assert (Hrows := init_rows _ _ _ Hri).
    apply init_inv in Hri.
    destruct Hri as (omax & a_min & j1 & Homax & Hamin & Hom & Haf & _).
    injection Homax as <-.
    cbn [rg rh a_gr1 nu_p1 toy_cusp_at] in Hamin, Haf.
    fold toy_axis in Hamin. rewrite select_map_filter in Hamin.
    rewrite (toy_mask g w Hg Hw) in Hamin. injection Hamin as <-.
    fold toy_axis in Haf.
    split; [exact Hom |]. split; [exact Haf |].
    intros k d. cbv zeta in Hrows. rewrite Haf in Hrows.
    cbn [a_gr1 toy_cusp_at] in Hrows.
    rewrite (toy_below g Hg), (toy_above_length g Hg) in Hrows.
    rewrite toy_axis_length in Hrows. cbn [length] in Hrows.
    destruct (Hrows k d) as (R1 & R2 & R3). cbv zeta.
    set (n := if Rltb g (nth 1 toy_axis 0) then 999%nat else 998%nat) in *.
    assert (Hz : forall i, (i < 1000)%nat ->
                   nth i (Np.zeros2 1000 1) d = [0])
      by (intros i Hi; rewrite nth_zeros2 by exact Hi; reflexivity).
    split; [| split; [| split]].
    + intros Hk. destruct (Nat.lt_ge_cases k 1) as [Hk1 | Hk1].
      * destruct (R1 Hk1) as [H _]. eexists; exact H.
      * destruct R2 as [H _]; [lia |]. eexists; exact H.
    + intros Hk. destruct (R1 Hk) as [_ H]. rewrite H. apply Hz. lia.
    + intros Hk. destruct R2 as [_ H]; [lia |].
      rewrite toy_has_negative in H. eexists; exact H.
    + intros Hk. destruct R3 as [H1 H2]; [lia |].
      rewrite H1, H2. split; apply Hz; lia.
Qed.

(** ** The query, unfolded *)

Lemma tol_pos : 0 < ResInterp.tol.
Proof. unfold ResInterp.tol. lra. Qed.

(** At a frequency of the construction array the lookup finds a column
    of that frequency and interpolates over its nodes. *)
Lemma get_jf_at_tabulated (self : ResInterp.t) (om : R) :
  In om (ResInterp.omega self) ->
  exists i,
    (i < length (ResInterp.omega self))%nat
    /\ nth i (ResInterp.omega self) 0 = om
    /\ forall tbl af,
        ResInterp.get_jf self tbl om af
        = if Nat.ltb 0 (Np.count_true
                          (ResInterp.positive (Np.column tbl i)))
          then Np.interp af (jf_nodes self tbl i) 0 0
          else Ok (map (fun a => a * 0) af).
Proof.
  intros Hin.
  destruct (argmin_spec (map (fun w => Rabs (w - om)) (ResInterp.omega self)))
    as (k & Hk0 & Hk & Hmin).
  { destruct (ResInterp.omega self); [destruct Hin | discriminate]. }
  rewrite length_map in Hk.
  rewrite (nth_map_in_range _ _ 0) in Hmin by exact Hk.
  assert (Hz : Rabs (nth k (ResInterp.omega self) 0 - om) <= 0).
  { rewrite Forall_forall in Hmin.
    assert (H : Rabs (nth k (ResInterp.omega self) 0 - om) <= Rabs (om - om)).
    { apply Hmin. apply in_map_iff. exists om.
      split; [reflexivity | exact Hin]. }
    unfold Rminus in H at 2. rewrite Rplus_opp_r, Rabs_R0 in H. exact H. }
  assert (He : nth k (ResInterp.omega self) 0 = om).
  { assert (H0 := Rabs_pos (nth k (ResInterp.omega self) 0 - om)).
    assert (E : Rabs (nth k (ResInterp.omega self) 0 - om) = 0) by lra.
    destruct (Req_dec (nth k (ResInterp.omega self) 0 - om) 0) as [D | D];
      [lra | apply Rabs_no_R0 in D; contradiction]. }
  exists k. split; [exact Hk |]. split; [exact He |].
  intros tbl af. unfold ResInterp.get_jf. rewrite Hk0, bind_Ok.
  replace (Rgtb (Rabs (nth k (ResInterp.omega self) 0 - om)) ResInterp.tol)
    with false; [reflexivity |].
  symmetry. apply Rgtb_false. assert (H := tol_pos). lra.
Qed.

Lemma select_combine_positive (af col : list R) :
  combine (Np.select af (ResInterp.positive col))
          (Np.select col (ResInterp.positive col))
  = filter (fun p => Rgtb (snd p) 0) (combine af col).
Proof.
  unfold ResInterp.positive.
  revert af; induction col as [| e col IH]; intros af.
  - destruct af; cbn; [reflexivity |]. reflexivity.
  - destruct af as [| a af]; cbn [map Np.select combine filter snd].
    + destruct (Rgtb e 0); reflexivity.
    + destruct (Rgtb e 0); cbn [combine]; rewrite IH; reflexivity.
Qed.

Lemma jf_nodes_in (self : ResInterp.t) (tbl : list (list R)) (i : nat)
      (x f : R) :
  In (x, f) (jf_nodes self tbl i)
  <-> In (x, f) (combine (ResInterp._af self) (Np.column tbl i)) /\ f > 0.
Proof.
  unfold jf_nodes. cbv zeta. rewrite select_combine_positive, filter_In.
  cbn [snd]. rewrite Rgtb_true. tauto.
Qed.

Lemma in_combine_nth (l1 l2 : list R) (k : nat) :
  (k < length l1)%nat -> (k < length l2)%nat ->
  In (nth k l1 0, nth k l2 0) (combine l1 l2).
Proof.
  intros H1 H2.
  revert l2 k H1 H2; induction l1 as [| a l1 IH]; intros l2 k H1 H2;
    cbn in H1; [lia |].
  destruct l2 as [| b l2]; cbn in H2; [lia |].
  destruct k as [| k]; cbn; [left; reflexivity |].
  right. apply IH; lia.
Qed.

Lemma combine_in_nth (l1 l2 : list R) (x f : R) :
  In (x, f) (combine l1 l2) ->
  exists k, (k < length l1)%nat /\ (k < length l2)%nat
            /\ nth k l1 0 = x /\ nth k l2 0 = f.
Proof.
  revert l2; induction l1 as [| a l1 IH]; intros l2 H; cbn in H; [tauto |].
  destruct l2 as [| b l2]; cbn in H; [tauto |].
  destruct H as [H | H].
  - injection H as <- <-. exists 0%nat. cbn. repeat split; lia.
  - destruct (IH _ H) as (k & H1 & H2 & H3 & H4).
    exists (S k). cbn. repeat split; try lia; assumption.
Qed.

Lemma combine_sorted (af col : list R) :
  StronglySorted Rle af -> StronglySorted key_le (combine af col).
Proof.
  intros Hs. revert col; induction Hs as [| a af Hs IH Hall]; intros col.
  - constructor.
  - destruct col as [| e col]; cbn; constructor; [apply IH |].
    apply Forall_forall. intros [x f] Hp. apply in_combine_l in Hp.
    rewrite Forall_forall in Hall. unfold key_le; cbn. apply Hall, Hp.
Qed.

Lemma filter_sorted {A : Type} (R0 : A -> A -> Prop) (P : A -> bool)
      (l : list A) :
  StronglySorted R0 l -> StronglySorted R0 (filter P l).
Proof.
  induction 1 as [| x l Hs IH Hall]; cbn; [constructor |].
  destruct (P x); [| exact IH]. constructor; [exact IH |].
  apply Forall_forall. intros y Hy. apply filter_In in Hy as [Hy _].
  rewrite Forall_forall in Hall. apply Hall, Hy.
Qed.

Lemma jf_nodes_sorted (self : ResInterp.t) (tbl : list (list R)) (i : nat) :
  StronglySorted Rle (ResInterp._af self) ->
  StronglySorted key_le (jf_nodes self tbl i).
Proof.
  intros Hs. unfold jf_nodes. cbv zeta. rewrite select_combine_positive.
  apply filter_sorted, combine_sorted, Hs.
Qed.

Lemma count_true_positive (col : list R) :
  (0 < Np.count_true (ResInterp.positive col))%nat
  <-> exists e, In e col /\ e > 0.
Proof.
  unfold Np.count_true, ResInterp.positive. split.
  - intros H. destruct (filter _ _) as [| b l] eqn:E; [cbn in H; lia |].
    assert (Hb : In b (filter (fun b : bool => b)
                              (map (fun x => Rgtb x 0) col)))
      by (rewrite E; left; reflexivity).
    apply filter_In in Hb as [Hb Ht]. subst b.
    apply in_map_iff in Hb as (e & He & Hin).
    exists e. split; [exact Hin | apply Rgtb_true, He].
  - intros (e & Hin & He).
    assert (Hb : In true (filter (fun b : bool => b)
                                 (map (fun x => Rgtb x 0) col))).
    { apply filter_In. split; [| reflexivity]. apply in_map_iff.
      exists e. split; [apply Rgtb_true, He | exact Hin]. }
    destruct (filter _ _); [destruct Hb | cbn; lia].
Qed.

(** ** Bounds on the entries of a constructed table *)










(** When the critical axis is not beyond [r_h], the axis samples strictly
    increase. *)
Lemma init_af_increasing (c : Cusp) (omega : list R) (ri : ResInterp.t) :
  ResInterp.__init__ c omega = Ok ri ->
  a_gr1 c <= rh c ->
  StronglySorted Rlt (ResInterp._af ri).
Proof.
  intros Hri Hg. apply init_inv in Hri.
  destruct Hri as (omax & a_min & j1 & _ & Hamin & _ & Haf & _).
  cbv zeta in Haf. rewrite Haf.
  apply amax_spec in Hamin as [Hin _].
  rewrite select_map_filter in Hin. apply filter_In in Hin as [Hin HP].
  apply andb_true_iff in HP as [HP _]. apply Rltb_true in HP.
  assert (Hpos : 0 < a_min).
  { unfold Np.logspace in Hin. apply in_map_iff in Hin as (y & <- & _).
    apply pow10_pos. }
  apply (logspace_increasing _ _ 998). apply log10_lt; lra.
Qed.

(** ** The values returned by a query *)



Lemma last_in {A : Type} (p0 : A) (rest : list A) :
  In (last rest p0) (p0 :: rest).
Proof.
  revert p0; induction rest as [| r rest IH]; intros p0;
    [left; reflexivity |].
  right. replace (last (r :: rest) p0) with (last rest r); [apply IH |].
  clear. revert r; induction rest as [| r' rest IH]; intros r;
    [reflexivity |]. cbn in *. destruct rest; [reflexivity | apply IH].
Qed.

Lemma column_nth (tbl : list (list R)) (i k : nat) :
  nth k (Np.column tbl i) 0 = nth i (nth k tbl []) 0.
Proof.
  unfold Np.column.
  rewrite <- (map_nth (fun row : list R => nth i row 0) tbl [] k).
  f_equal. destruct i; reflexivity.
Qed.

Lemma solved_in_range (tbl : list (list R)) (i k : nat) :
  solved_at tbl i k -> (k < length tbl)%nat.
Proof.
  unfold solved_at. intros H.
  destruct (Nat.lt_ge_cases k (length tbl)) as [Hk | Hk]; [exact Hk |].
  rewrite (nth_overflow tbl) in H by exact Hk.
  destruct i; cbn in H; lra.
Qed.

Lemma solved_node (self : ResInterp.t) (tbl : list (list R)) (i k : nat) :
  length tbl = length (ResInterp._af self) ->
  solved_at tbl i k ->
  In (nth k (ResInterp._af self) 0, nth i (nth k tbl []) 0)
     (jf_nodes self tbl i).
Proof.
  intros Hlen Hs. assert (Hk := solved_in_range _ _ _ Hs).
  apply jf_nodes_in. split; [| exact Hs].
  rewrite <- column_nth. apply in_combine_nth; [lia |].
  rewrite column_length. exact Hk.
Qed.

Lemma node_solved (self : ResInterp.t) (tbl : list (list R)) (i : nat)
      (x f : R) :
  In (x, f) (jf_nodes self tbl i) ->
  exists k, solved_at tbl i k
            /\ x = nth k (ResInterp._af self) 0
            /\ f = nth i (nth k tbl []) 0.
Proof.
  intros H. apply jf_nodes_in in H as [H Hf].
  apply combine_in_nth in H as (k & _ & _ & H1 & H2).
  rewrite column_nth in H2. exists k. unfold solved_at.
  rewrite H2. repeat split; [lra | congruence].
Qed.




(** A column whose solved entries all equal [e], queried between two
    solved axis samples, returns [e]. *)
Lemma const_column_query (ri : ResInterp.t) (tbl : list (list R))
      (i klo khi : nat) (e a : R) :
  length tbl = length (ResInterp._af ri) ->
  StronglySorted Rle (ResInterp._af ri) ->
  (forall k, solved_at tbl i k -> nth i (nth k tbl []) 0 = e) ->
  solved_at tbl i klo -> solved_at tbl i khi ->
  nth klo (ResInterp._af ri) 0 <= a <= nth khi (ResInterp._af ri) 0 ->
  (if Nat.ltb 0 (Np.count_true (ResInterp.positive (Np.column tbl i)))
   then Np.interp [a] (jf_nodes ri tbl i) 0 0
   else Ok (map (fun a => a * 0) [a])) = Ok [e].
Proof.
  intros Hlen Hsorted Hconst Hlo Hhi Ha.
  assert (Hn1 := solved_node ri tbl i klo Hlen Hlo).
  assert (Hn2 := solved_node ri tbl i khi Hlen Hhi).
  assert (Hsn := jf_nodes_sorted ri tbl i Hsorted).
  replace (Nat.ltb 0 (Np.count_true (ResInterp.positive (Np.column tbl i))))
    with true.
  2:{ symmetry. apply Nat.ltb_lt. apply count_true_positive.
      exists (nth klo (Np.column tbl i) 0). split.
      - apply nth_In. rewrite column_length.
        eapply solved_in_range; exact Hlo.
      - rewrite column_nth. exact Hlo. }
  unfold Np.interp.
  destruct (jf_nodes ri tbl i) as [| p0 rest] eqn:En; [destruct Hn1 |].
  cbn [map]. f_equal. f_equal.
  replace e with (0 * a + e) by lra.
  apply interp_at_affine.
  - exact Hsn.
  - apply Forall_forall. intros [x f] Hp. rewrite <- En in Hp.
    apply node_solved in Hp as (k & Hs & _ & ->). cbn [fst snd].
    rewrite (Hconst k Hs). lra.
  - eexists. split; [exact Hn1 |]. cbn [fst]. lra.
  - eexists. split; [exact Hn2 |]. cbn [fst]. lra.
Qed.

Lemma toy_axis_999 : nth 999 toy_axis 0 = 10.
Proof.
  unfold toy_axis. rewrite (logspace_nth _ _ 998 999) by lia.
  rewrite (lin_point_last _ _ 998), log10_10. apply pow10_1.
Qed.

Lemma toy_axis_1_le : nth 1 toy_axis 0 <= 3.
Proof.
  unfold toy_axis. rewrite (logspace_nth _ _ 998 1) by lia.
  unfold lin_point. rewrite log10_1, log10_10.
  replace (INR (1000 - 1)) with 999 by (rewrite INR_IZR_INZ; reflexivity).
  replace (INR 1) with 1 by reflexivity.
  unfold Np.pow10, Rpower.
  assert (H9 : ln 10 < 9).
  { assert (H : ln 10 <> 0) by (apply Rgt_not_eq, ln10_pos).
    apply exp_ineq1 in H. rewrite exp_ln in H by lra. lra. }
  assert (H1 := ln10_pos).
  apply Rle_trans with (exp 1); [| apply exp_le_3].
  left. apply exp_increasing. nra.
Qed.

Lemma toy_axis_sorted : StronglySorted Rle toy_axis.
Proof. apply sorted_lt_le, toy_axis_increasing. Qed.

(** The table of the toy cusp for one target frequency [w]: branch 1 holds
    [1/2 - w] in every row; branch 2 holds nothing in the first row (the
    only axis sample below the critical axis) and [1/2 + w] in the others. *)
Lemma toy_table (w : R) :
  1 / 5 <= w <= 2 / 5 ->
  exists ri,
    ResInterp.__init__ toy_cusp [w] = Ok ri
    /\ ResInterp.omega ri = [w]
    /\ ResInterp._af ri = toy_axis
    /\ length (ResInterp._j1 ri) = 1000%nat
    /\ length (ResInterp._j2 ri) = 1000%nat
    /\ (forall k, (k < 1000)%nat -> nth k (ResInterp._j1 ri) [] = [1 / 2 - w])
    /\ nth 0 (ResInterp._j2 ri) [] = [0]
    /\ (w <= 1 / 5 ->
        forall k, (1 <= k < 1000)%nat ->
                  nth k (ResInterp._j2 ri) [] = [1 / 2 + w]).
Proof.
  intros Hw. assert (H1 := toy_axis_1).
  destruct (toy_init (1001 / 1000) w) as (ri & Hri & Hom & Haf & Hrows);
    [lra | lra |].
  exists ri. split; [exact Hri |]. split; [exact Hom |]. split; [exact Haf |].
  destruct (init_shape _ _ _ Hri) as (_ & _ & Hl1 & Hl2).
  rewrite Haf, toy_axis_length in Hl1, Hl2.
  split; [exact Hl1 |]. split; [exact Hl2 |].
  replace (Rltb (1001 / 1000) (nth 1 toy_axis 0)) with true in Hrows
    by (symmetry; apply Rltb_true; exact H1).
  cbv zeta in Hrows.
  split; [| split].
  - intros k Hk. destruct (Hrows k []) as (R1 & _).
    destruct R1 as [a Ha]; [lia |].
    rewrite (toy_row1 _ a w Hw) in Ha. injection Ha as <-. reflexivity.
  - destruct (Hrows 0%nat []) as (_ & R2 & _). apply R2. lia.
  - intros Hw' k Hk. destruct (Hrows k []) as (_ & _ & R3 & _).
    destruct R3 as [a Ha]; [lia |].
    rewrite (toy_row2 _ a w) in Ha by lra. injection Ha as <-. reflexivity.
Qed.

Lemma toy_query1 (ri : ResInterp.t) (w a : R) :
  ResInterp.omega ri = [w] ->
  ResInterp._af ri = toy_axis ->
  length (ResInterp._j1 ri) = 1000%nat ->
  (forall k, (k < 1000)%nat -> nth k (ResInterp._j1 ri) [] = [1 / 2 - w]) ->
  w < 1 / 2 -> 1 <= a <= 10 ->
  ResInterp.get_jf1 ri w [a] = Ok [1 / 2 - w].
Proof.
  intros Hom Haf Hlen Hrows Hw Ha.
  destruct (get_jf_at_tabulated ri w) as (i & Hi & _ & Hq);
    [rewrite Hom; left; reflexivity |].
  rewrite Hom in Hi. cbn [length] in Hi. assert (i = 0%nat) by lia. subst i.
  unfold ResInterp.get_jf1. rewrite Hq.
  assert (Hs : forall k, (k < 1000)%nat -> solved_at (ResInterp._j1 ri) 0 k).
  { intros k Hk. unfold solved_at. rewrite (Hrows k Hk). cbn [nth]. lra. }
  apply (const_column_query ri _ 0 0 999).
  - rewrite Haf, toy_axis_length. exact Hlen.
  - rewrite Haf. apply toy_axis_sorted.
  - intros k Hk. apply solved_in_range in Hk. rewrite Hlen in Hk.
    rewrite (Hrows k Hk). reflexivity.
  - apply Hs. lia.
  - apply Hs. lia.
  - rewrite Haf, toy_axis_0, toy_axis_999. exact Ha.
Qed.

Lemma toy_query2 (ri : ResInterp.t) (w a : R) :
  ResInterp.omega ri = [w] ->
  ResInterp._af ri = toy_axis ->
  length (ResInterp._j2 ri) = 1000%nat ->
  nth 0 (ResInterp._j2 ri) [] = [0] ->
  (forall k, (1 <= k < 1000)%nat ->
             nth k (ResInterp._j2 ri) [] = [1 / 2 + w]) ->
  0 < w -> 3 <= a <= 10 ->
  ResInterp.get_jf2 ri w [a] = Ok [1 / 2 + w].
Proof.
  intros Hom Haf Hlen Hrow0 Hrows Hw Ha.
  destruct (get_jf_at_tabulated ri w) as (i & Hi & _ & Hq);
    [rewrite Hom; left; reflexivity |].
  rewrite Hom in Hi. cbn [length] in Hi. assert (i = 0%nat) by lia. subst i.
  unfold ResInterp.get_jf2. rewrite Hq.
  assert (Hs : forall k, (1 <= k < 1000)%nat ->
                         solved_at (ResInterp._j2 ri) 0 k).
  { intros k Hk. unfold solved_at. rewrite (Hrows k Hk). cbn [nth]. lra. }
  apply (const_column_query ri _ 0 1 999).
  - rewrite Haf, toy_axis_length. exact Hlen.
  - rewrite Haf. apply toy_axis_sorted.
  - intros k Hk. assert (Hk' := solved_in_range _ _ _ Hk).
    rewrite Hlen in Hk'. destruct k as [| k].
    + unfold solved_at in Hk. rewrite Hrow0 in Hk. cbn [nth] in Hk. lra.
    + rewrite (Hrows (S k)) by lia. reflexivity.
  - apply Hs. lia.
  - apply Hs. lia.
  - rewrite Haf, toy_axis_999. assert (H := toy_axis_1_le). lra.
Qed.

(** C4 at a concrete input: the toy table for the frequency [1/5], queried
    at the frequency [1/2], which is far from it. *)
Lemma get_jf_raises_iff_far_witness :
  exists ri,
    ResInterp.__init__ toy_cusp [1 / 5] = Ok ri
    /\ ResInterp.get_jf1 ri (1 / 2) [5] = Raise ValueError
    /\ ResInterp.get_jf2 ri (1 / 2) [5] = Raise ValueError.
Proof.
  destruct (toy_table (1 / 5)) as (ri & Hri & _); [lra |].
  exists ri. split; [exact Hri |].
  destruct (get_jf_raises_iff_far toy_cusp [1 / 5] ri (1 / 2) [5] Hri)
    as (H1 & H2 & _).
  assert (Hfar : Forall (far_from (1 / 2)) [1 / 5]).
  { constructor; [| constructor]. unfold far_from, ResInterp.tol.
    replace (1 / 5 - 1 / 2) with (- (3 / 10)) by lra.
    rewrite Rabs_Ropp, Rabs_pos_eq; lra. }
  split; [apply H1, Hfar | apply H2, Hfar].
Defined.



(** ** The batch integrand *)

Lemma assign_overlay (self : DRR.t) (j : R) (lnnp : Lnnp)
      (x sma_f jf : list R) (ta : list Anomaly) :
  length sma_f = length x -> length jf = length x -> length ta = length x ->
  Np.assign x (ResInterp.positive jf)
    (DRR._integrand_batch self j
       (Np.select sma_f (ResInterp.positive jf))
       (Np.select jf (ResInterp.positive jf)) lnnp
       (Np.select ta (ResInterp.positive jf)))
  = Ok (overlay self j lnnp x sma_f jf ta).
Proof.
  unfold ResInterp.positive.
  revert sma_f jf ta; induction x as [| xi x IH];
    intros [| a sma_f] [| jp jf] [| t0 ta] H1 H2 H3;
    cbn [length] in *; try discriminate; [reflexivity |].
  injection H1 as H1. injection H2 as H2. injection H3 as H3.
  cbn [map Np.select Np.assign overlay].
  destruct (Rgtb jp 0); cbn [DRR._integrand_batch];
    rewrite (IH sma_f jf ta H1 H2 H3); reflexivity.
Qed.

Lemma overlay_length (self : DRR.t) (j : R) (lnnp : Lnnp)
      (x sma_f jf : list R) (ta : list Anomaly) :
  length sma_f = length x -> length jf = length x -> length ta = length x ->
  length (overlay self j lnnp x sma_f jf ta) = length x.
Proof.
  revert sma_f jf ta; induction x as [| xi x IH];
    intros [| a sma_f] [| jp jf] [| t0 ta] H1 H2 H3;
    cbn [length] in *; try discriminate; [reflexivity |].
  cbn [overlay length]. f_equal. apply IH; congruence.
Qed.

Lemma get_jf_length (self : ResInterp.t) (tbl : list (list R)) (om : R)
      (af v : list R) :
  ResInterp.get_jf self tbl om af = Ok v -> length v = length af.
Proof.
  unfold ResInterp.get_jf. intros H.
  apply bind_ok in H as (i & _ & H).
  destruct (Rgtb _ _); [discriminate |].
  destruct (Nat.ltb _ _).
  - unfold Np.interp in H. destruct (combine _ _); [discriminate |].
    injection H as <-. apply length_map.
  - injection H as <-. apply length_map.
Qed.

(** What [Clnnp] returns once both branches have been looked up: the
    array of zeros, overwritten by branch 1 where branch 1 has a solution,
    then overwritten by branch 2 where branch 2 has one. *)
Lemma Clnnp_overlays (self : DRR.t) (j omega : R) (lnnp : Lnnp) (ratio : R)
      (x : list Sample) (ri : ResInterp.t) (jf1 jf2 : list R) :
  let sma_f := map (fun p => inverse_cumulative_a (DRR.cusp self) (u5 p)) x in
  let ta := map DRR.true_anomaly_of x in
  DRR._res_intrp self ratio = Ok ri ->
  ResInterp.get_jf1 ri (omega * ratio) sma_f = Ok jf1 ->
  ResInterp.get_jf2 ri (omega * ratio) sma_f = Ok jf2 ->
  DRR.Clnnp self j omega lnnp ratio x
  = Ok (overlay self j lnnp
          (overlay self j lnnp (Np.zeros (length sma_f)) sma_f jf1 ta)
          sma_f jf2 ta).
Proof.
  intros sma_f ta Hri H1 H2. unfold DRR.Clnnp.
  fold sma_f. fold ta. rewrite Hri, !bind_Ok. rewrite H1, !bind_Ok.
  rewrite H2, !bind_Ok.
  assert (L1 : length jf1 = length sma_f)
    by (eapply get_jf_length; exact H1).
  assert (L2 : length jf2 = length sma_f)
    by (eapply get_jf_length; exact H2).
  assert (Lt : length ta = length sma_f)
    by (unfold ta, sma_f; rewrite !length_map; reflexivity).
  assert (Lz : length (Np.zeros (length sma_f)) = length sma_f)
    by apply repeat_length.
  rewrite assign_overlay by congruence. rewrite bind_Ok.
  rewrite assign_overlay; [rewrite bind_Ok; reflexivity | | |];
    rewrite overlay_length; congruence.
Qed.

Lemma overlay_nth (self : DRR.t) (j : R) (lnnp : Lnnp)
      (x sma_f jf : list R) (ta : list Anomaly) (k : nat) (dt : Anomaly) :
  length sma_f = length x -> length jf = length x -> length ta = length x ->
  (k < length x)%nat ->
  nth k (overlay self j lnnp x sma_f jf ta) 0
  = if Rgtb (nth k jf 0) 0
    then DRR._integrand self j (nth k sma_f 0) (nth k jf 0) lnnp (nth k ta dt)
    else nth k x 0.
Proof.
  revert sma_f jf ta k; induction x as [| xi x IH];
    intros [| a sma_f] [| jp jf] [| t0 ta] k H1 H2 H3 Hk;
    cbn [length] in *; try discriminate; try lia.
  cbn [overlay]. destruct k as [| k]; cbn [nth]; [reflexivity |].
  apply IH; try congruence. lia.
Qed.

(** X1: [Clnnp], point by point.  When the table is built and both
    branches are looked up, the batch integrand returns one value per sample
    point: the integrand at branch 2's angular momentum where branch 2 has a
    solution, else the integrand at branch 1's where branch 1 has one, else
    [0].  Where both branches have a solution, branch 1's value is
    overwritten and does not enter the result. *)
Theorem Clnnp_pointwise
  (self : DRR.t) (j omega : R) (lnnp : Lnnp) (ratio : R) (x : list Sample)
  (ri : ResInterp.t) (jf1 jf2 : list R) :
  let sma_f := map (fun p => inverse_cumulative_a (DRR.cusp self) (u5 p)) x in
  DRR._res_intrp self ratio = Ok ri ->
  ResInterp.get_jf1 ri (omega * ratio) sma_f = Ok jf1 ->
  ResInterp.get_jf2 ri (omega * ratio) sma_f = Ok jf2 ->
  exists out,
    DRR.Clnnp self j omega lnnp ratio x = Ok out
    /\ length out = length x
    /\ forall k p, (k < length x)%nat ->
         nth k out 0
         = Clnnp_point self j lnnp (nth k x p) (nth k jf1 0) (nth k jf2 0).
Proof.
  intros sma_f Hri H1 H2.
  set (ta := map DRR.true_anomaly_of x).
  assert (L1 : length jf1 = length sma_f)
    by (eapply get_jf_length; exact H1).
  assert (L2 : length jf2 = length sma_f)
    by (eapply get_jf_length; exact H2).
  assert (Ls : length sma_f = length x) by (unfold sma_f; apply length_map).
  assert (Lt : length ta = length x) by (unfold ta; apply length_map).
  assert (Lz : length (Np.zeros (length sma_f)) = length x)
    by (rewrite <- Ls; apply repeat_length).
  eexists. split; [apply (Clnnp_overlays self j omega lnnp ratio x ri jf1 jf2
                           Hri H1 H2) |].
  fold sma_f. fold ta.
  assert (Lo : length (overlay self j lnnp (Np.zeros (length sma_f))
                         sma_f jf1 ta) = length x)
    by (rewrite overlay_length; congruence).
  split; [rewrite overlay_length; congruence |].
  intros k p Hk. unfold Clnnp_point. cbv zeta.
  rewrite (overlay_nth _ _ _ _ _ _ _ k (DRR.true_anomaly_of p))
    by congruence.
  rewrite (overlay_nth _ _ _ _ _ _ _ k (DRR.true_anomaly_of p))
    by congruence.
  unfold ta, sma_f.
  rewrite (map_nth DRR.true_anomaly_of x p k).
  rewrite (nth_map_in_range _ x p k Hk).
  unfold Np.zeros. rewrite nth_repeat. reflexivity.
Qed.

Lemma far_from_self (om : R) : ~ far_from om om.
Proof.
  unfold far_from. unfold Rminus. rewrite Rplus_opp_r, Rabs_R0.
  assert (H := tol_pos). lra.
Qed.

(** X2: the lookups of [Clnnp] cannot miss.  For a test-orbit frequency
    [omega] of [self.omega], once the table for [ratio] is built, [Clnnp]
    returns (no [ValueError] from [get_jf1] or [get_jf2]) with one value per
    sample point. *)
Theorem Clnnp_returns_for_grid_frequency
  (self : DRR.t) (j omega : R) (lnnp : Lnnp) (ratio : R) (x : list Sample)
  (ri : ResInterp.t) :
  DRR._res_intrp self ratio = Ok ri ->
  In omega (DRR.omega self) ->
  exists out, DRR.Clnnp self j omega lnnp ratio x = Ok out
              /\ length out = length x.
Proof.
  intros Hri Hin.
  assert (Hsh := Hri). unfold DRR._res_intrp in Hsh.
  apply init_shape in Hsh as (Hom & Hne & Hl1 & Hl2).
  assert (Hnear : ~ Forall (far_from (omega * ratio)) (ResInterp.omega ri)).
  { intros HF. rewrite Forall_forall in HF.
    apply (far_from_self (omega * ratio)). apply HF. rewrite Hom.
    apply in_map_iff. exists omega. split; [reflexivity | exact Hin]. }
  set (sma_f := map (fun p => inverse_cumulative_a (DRR.cusp self) (u5 p)) x).
  destruct (get_jf_near ri (ResInterp._j1 ri) (omega * ratio) sma_f
              Hne Hl1 Hnear) as [jf1 H1].
  destruct (get_jf_near ri (ResInterp._j2 ri) (omega * ratio) sma_f
              Hne Hl2 Hnear) as [jf2 H2].
  eexists. split; [apply (Clnnp_overlays self j omega lnnp ratio x ri jf1 jf2
                           Hri H1 H2) |].
  fold sma_f.
  assert (L1 : length jf1 = length sma_f)
    by (eapply get_jf_length; exact H1).
  assert (L2 : length jf2 = length sma_f)
    by (eapply get_jf_length; exact H2).
  assert (Ls : length sma_f = length x) by (unfold sma_f; apply length_map).
  assert (Lz : length (Np.zeros (length sma_f)) = length x)
    by (rewrite <- Ls; apply repeat_length).
  assert (Lt : length (map DRR.true_anomaly_of x) = length x)
    by apply length_map.
  assert (Lo : length (overlay self j lnnp (Np.zeros (length sma_f))
                         sma_f jf1 (map DRR.true_anomaly_of x)) = length x)
    by (rewrite overlay_length; congruence).
  rewrite overlay_length; congruence.
Qed.

(** The toy test orbit, evaluated. *)
Lemma toy_drr_omega : DRR.omega toy_drr = [2 / 5].
Proof.
  unfold toy_drr, DRR.__init__. cbn [DRR.omega].
  rewrite (logspace_drop_last _ _ 0). cbn [seq map].
  rewrite lin_point_0.
  cbn [jlc nu_p toy_cusp toy_cusp_at]. rewrite log10_tenth, pow10_m1.
  replace (1 / 2 - 1 / 10) with (2 / 5) by lra.
  rewrite Rabs_pos_eq by lra. reflexivity.
Qed.

Lemma toy_res_intrp :
  DRR._res_intrp toy_drr (2 / 4) = ResInterp.__init__ toy_cusp [1 / 5].
Proof.
  unfold DRR._res_intrp. rewrite toy_drr_omega. cbn [map].
  replace (2 / 5 * (2 / 4)) with (1 / 5) by lra. reflexivity.
Qed.

Lemma toy_sample_axis :
  map (fun p => inverse_cumulative_a (DRR.cusp toy_drr) (u5 p))
      [toy_sample_point] = [1 + 9 * (4 / 9)].
Proof. reflexivity. Qed.

(** Both branches of the toy table have a solution at the sample point. *)
Lemma toy_branches :
  exists ri,
    DRR._res_intrp toy_drr (2 / 4) = Ok ri
    /\ ResInterp.get_jf1 ri (2 / 5 * (2 / 4)) [1 + 9 * (4 / 9)] = Ok [3 / 10]
    /\ ResInterp.get_jf2 ri (2 / 5 * (2 / 4)) [1 + 9 * (4 / 9)] = Ok [7 / 10].
Proof.
  destruct (toy_table (1 / 5))
    as (ri & Hri & Hom & Haf & Hl1 & Hl2 & Hr1 & Hr0 & Hr2); [lra |].
  exists ri. rewrite toy_res_intrp. split; [exact Hri |].
  replace (2 / 5 * (2 / 4)) with (1 / 5) by lra.
  split.
  - replace (3 / 10) with (1 / 2 - 1 / 5) by lra.
    apply toy_query1; try assumption; lra.
  - replace (7 / 10) with (1 / 2 + 1 / 5) by lra.
    apply toy_query2; try assumption; try lra. apply Hr2. lra.
Qed.

(** X1 at a concrete input: the toy test orbit with [(l, n, n_p) =
    (4, 2, 4)] and one sample point where branch 1 gives [3/10] and branch 2
    gives [7/10]: the result is the integrand at [7/10] alone. *)
Lemma Clnnp_pointwise_witness :
  exists out,
    DRR.Clnnp toy_drr (1 / 10) (2 / 5) toy_lnnp (2 / 4) [toy_sample_point]
    = Ok out
    /\ length out = 1%nat
    /\ nth 0 out 0
       = DRR._integrand toy_drr (1 / 10) (1 + 9 * (4 / 9)) (7 / 10) toy_lnnp
           (DRR.true_anomaly_of toy_sample_point).
Proof.
  destruct toy_branches as (ri & Hri & H1 & H2).
  destruct (Clnnp_pointwise toy_drr (1 / 10) (2 / 5) toy_lnnp (2 / 4)
              [toy_sample_point] ri [3 / 10] [7 / 10] Hri)
    as (out & Ho & Hl & Hp).
  - rewrite toy_sample_axis. exact H1.
  - rewrite toy_sample_axis. exact H2.
  - exists out. split; [exact Ho |]. split; [exact Hl |].
    rewrite (Hp 0%nat toy_sample_point) by (cbn; lia).
    cbn [nth]. unfold Clnnp_point. cbv zeta.
    replace (Rgtb (7 / 10) 0) with true by (symmetry; apply Rgtb_true; lra).
    reflexivity.
Defined.

(** X2 at a concrete input: the toy test orbit and its frequency [2/5]. *)
Lemma Clnnp_returns_for_grid_frequency_witness :
  exists ri out,
    DRR._res_intrp toy_drr (2 / 4) = Ok ri
    /\ DRR.Clnnp toy_drr (1 / 10) (2 / 5) toy_lnnp (2 / 4) [toy_sample_point]
       = Ok out
    /\ length out = length [toy_sample_point].
Proof.
  destruct toy_branches as (ri & Hri & _).
  destruct (Clnnp_returns_for_grid_frequency toy_drr (1 / 10) (2 / 5)
              toy_lnnp (2 / 4) [toy_sample_point] ri Hri)
    as (out & Ho & Hl).
  - rewrite toy_drr_omega. left; reflexivity.
  - exists ri, out. repeat split; assumption.
Defined.

(** ** Integration over the grid *)

Section GridIntegration.

Variable V : Type.
Variable vegas_Integrator : V -> V.
Variable vegas_call :
  (list Sample -> result (list R)) -> R -> V -> result (R * R) * V.
Variable sph_harm_abs : Z -> Z -> R.

Let World := DRR.World V.
Let _drr := DRR._drr V vegas_Integrator vegas_call sph_harm_abs.
Let drr_rows := DRR.drr_rows V vegas_Integrator vegas_call sph_harm_abs.
Let drr := DRR.drr V vegas_Integrator vegas_call sph_harm_abs.

Lemma integrate_effect (func : list Sample -> result (list R)) (neval : R)
      (w w' : World) (res : result (R * R)) :
  DRR.integrate V vegas_call func neval w = (res, w') ->
  DRR.drr_cache V w' = DRR.drr_cache V w
  /\ DRR.mc_runs V w' = S (DRR.mc_runs V w)
  /\ forall r, res = Ok r -> 0 <= snd r.
Proof.
  unfold DRR.integrate, bindS, DRR.integ, ret, DRR.count_run, DRR.with_vegas.
  cbn [DRR.vegas DRR.mc_runs DRR.drr_cache].
  destruct (vegas_call func neval (DRR.vegas V w)) as [[r1 | e1] v1].
  - cbn [DRR.vegas DRR.mc_runs DRR.drr_cache].
    destruct (vegas_call func neval v1) as [[r2 | e2] v2]; intros H;
      injection H as <- <-; cbn; repeat split; try discriminate.
    intros r Hr. injection Hr as <-. cbn. apply sqrt_pos.
  - intros H. injection H as <- <-. cbn. repeat split. discriminate.
Qed.

Lemma A2_norm_factor_nonneg (l n n_p : Z) :
  (0 <= l)%Z -> 0 <= _A2_norm_factor sph_harm_abs l n n_p.
Proof.
  intros Hl. unfold _A2_norm_factor.
  assert (H : 0 < IZR (2 * l + 1)) by (apply IZR_lt; lia).
  apply Rmult_le_pos; [| left; apply Rinv_0_lt_compat, H].
  apply Rmult_le_pos; [apply Rmult_le_pos |]; apply pow2_ge_0.
Qed.

(** One grid point: what [_drr] leaves behind and what it returns. *)
Lemma drr_point_effect (self : DRR.t) (j omega : R) (lnnp : Lnnp) (neval : R)
      (w w' : World) (res : result (R * R)) :
  _drr self j omega lnnp neval w = (res, w') ->
  DRR.drr_cache V w' = DRR.drr_cache V w
  /\ (forall r, res = Ok r ->
        np_ lnnp <> 0%Z
        /\ DRR.mc_runs V w' = S (DRR.mc_runs V w)
        /\ ((0 <= l_ lnnp)%Z -> 0 <= snd r))
  /\ (np_ lnnp = 0%Z ->
      res = Raise ZeroDivisionError
      /\ DRR.mc_runs V w' = DRR.mc_runs V w).
Proof.
  unfold _drr, DRR._drr, lnnp_last, lnnp_1.
  destruct (Z.eqb_spec (np_ lnnp) 0) as [E | E].
  - intros H. injection H as <- <-. cbn. repeat split; discriminate.
  - unfold bindS.
    destruct (DRR.integrate V vegas_call _ neval _) as [[r | e] w1] eqn:Hi;
      apply integrate_effect in Hi as (Hc & Hm & Hs);
      intros H; injection H as <- <-; cbn in Hc, Hm.
    + split; [exact Hc |]. split; [| contradiction].
      intros r0 Hr. injection Hr as <-. split; [exact E |].
      split; [exact Hm |]. intros Hl. cbn [snd].
      apply Rmult_le_pos; [apply Rmult_le_pos |].
      * apply Hs. reflexivity.
      * apply A2_norm_factor_nonneg, Hl.
      * assert (Hn : (0 <= n_ lnnp ^ 2)%Z)
          by (apply Z.pow_even_nonneg; exists 1%Z; reflexivity).
        apply IZR_le. exact Hn.
    + split; [exact Hc |]. split; [discriminate | contradiction].
Qed.

Lemma drr_rows_cons (self : DRR.t) (j_i omegai : R) (js omegas : list R)
      (lnnp : Lnnp) (neval : R) :
  drr_rows self (j_i :: js) (omegai :: omegas) lnnp neval
  = (row <~ _drr self j_i omegai lnnp neval ;;
     rows <~ drr_rows self js omegas lnnp neval ;;
     ret (row :: rows)).
Proof. reflexivity. Qed.

(** The loop over the grid: the cache is not touched; a returning loop has
    one row and one integration per grid point, with non-negative errors
    for [l >= 0]. *)
Lemma drr_rows_effect (self : DRR.t) (js omegas : list R) (lnnp : Lnnp)
      (neval : R) (w w' : World) (res : result (list (R * R))) :
  length omegas = length js ->
  drr_rows self js omegas lnnp neval w = (res, w') ->
  DRR.drr_cache V w' = DRR.drr_cache V w
  /\ forall rows, res = Ok rows ->
       length rows = length js
       /\ DRR.mc_runs V w' = (DRR.mc_runs V w + length js)%nat
       /\ ((0 <= l_ lnnp)%Z -> Forall (fun r => 0 <= snd r) rows).
Proof.
  revert omegas w w' res; induction js as [| j_i js IH];
    intros [| omegai omegas] w w' res Hlen H; cbn [length] in Hlen;
    try discriminate.
  - cbn in H. injection H as <- <-. split; [reflexivity |].
    intros rows Hr. injection Hr as <-. cbn. repeat split; [lia | constructor].
  - rewrite drr_rows_cons in H. unfold bindS in H.
    destruct (_drr self j_i omegai lnnp neval w) as [[row | e] w1] eqn:Hp.
    2:{ injection H as <- <-. apply drr_point_effect in Hp as (Hc & _).
        split; [exact Hc | discriminate]. }
    apply drr_point_effect in Hp as (Hc & Hok & _).
    destruct (Hok row eq_refl) as (_ & Hm & Hs).
    destruct (drr_rows self js omegas lnnp neval w1) as [[rows | e] w2] eqn:Hr.
    2:{ injection H as <- <-. apply IH in Hr as (Hc2 & _); [| congruence].
        split; [congruence | discriminate]. }
    apply IH in Hr as (Hc2 & Hok2); [| congruence].
    destruct (Hok2 rows eq_refl) as (Hl2 & Hm2 & Hs2).
    unfold ret in H. injection H as <- <-.
    split; [congruence |]. intros rows0 Hr0. injection Hr0 as <-.
    cbn [length]. split; [lia |]. split; [lia |].
    intros Hl. constructor; [apply Hs, Hl | apply Hs2, Hl].
Qed.

End GridIntegration.

Lemma j_grid_length (c : Cusp) (sma : R) (Njs : nat) (l_max : Z) :
  length (DRR.j (DRR.__init__ c sma Njs l_max)) = (Njs - 1)%nat
  /\ length (DRR.omega (DRR.__init__ c sma Njs l_max)) = (Njs - 1)%nat.
Proof.
  unfold DRR.__init__. cbn [DRR.j DRR.omega]. rewrite length_map.
  assert (H : length (Np.drop_last
                        (Np.logspace (Np.log10 (jlc c sma)) 0 Njs))
              = (Njs - 1)%nat).
  { destruct Njs as [| [| n]]; [reflexivity | reflexivity |].
    rewrite logspace_drop_last, length_map, length_seq. lia. }
  split; exact H.
Qed.

Section GridResults.

Variable V : Type.
Variable vegas_Integrator : V -> V.
Variable vegas_call :
  (list Sample -> result (list R)) -> R -> V -> result (R * R) * V.
Variable sph_harm_abs : Z -> Z -> R.

Let drr := DRR.drr V vegas_Integrator vegas_call sph_harm_abs.

(** What a call of [drr] that misses the cache does, for a constructed
    instance. *)
Lemma drr_miss (c : Cusp) (sma : R) (Njs : nat) (l_max : Z) (l n n_p : Z)
      (neval : option R) (w w' : DRR.World V) (res : result (list (R * R))) :
  Lru.find _ _ DRR.key_eqb (l, n, n_p, neval) (DRR.drr_cache V w) = None ->
  drr (DRR.__init__ c sma Njs l_max) l n n_p neval w = (res, w') ->
  match res with
  | Ok rows =>
      length rows = (Njs - 1)%nat
      /\ DRR.mc_runs V w' = (DRR.mc_runs V w + (Njs - 1))%nat
      /\ DRR.drr_cache V w'
         = Lru.store _ _ (l, n, n_p, neval) rows (DRR.drr_cache V w)
      /\ ((0 <= l)%Z -> Forall (fun r => 0 <= snd r) rows)
  | Raise _ => DRR.drr_cache V w' = DRR.drr_cache V w
  end.
Proof.
  intros Hfind H. unfold drr, DRR.drr in H. rewrite Hfind in H.
  unfold DRR.drr_body in H.
  destruct (j_grid_length c sma Njs l_max) as [Lj Lo].
  destruct (DRR.drr_rows V vegas_Integrator vegas_call sph_harm_abs _ _ _ _ _ w)
    as [[rows | e] w1] eqn:Hr;
    apply drr_rows_effect in Hr as (Hc & Hok); try congruence;
    injection H as <- <-.
  - destruct (Hok rows eq_refl) as (Hl & Hm & Hs).
    cbn [DRR.drr_cache DRR.mc_runs DRR.with_cache l_] in *.
    rewrite Hl, Hm, Lj, Hc. repeat split. exact Hs.
  - exact Hc.
Qed.

(** X3: one row and one integration per grid point.  A call of [drr] that
    is not answered from the cache and returns has [Njs - 1] rows (value,
    error), has run [Njs - 1] Monte Carlo integrations, and has stored its
    result under its key. *)
Theorem drr_one_row_per_grid_point
  (c : Cusp) (sma : R) (Njs : nat) (l_max : Z) (l n n_p : Z)
  (neval : option R) (w w' : DRR.World V) (rows : list (R * R)) :
  Lru.find _ _ DRR.key_eqb (l, n, n_p, neval) (DRR.drr_cache V w) = None ->
  drr (DRR.__init__ c sma Njs l_max) l n n_p neval w = (Ok rows, w') ->
  length rows = (Njs - 1)%nat
  /\ DRR.mc_runs V w' = (DRR.mc_runs V w + (Njs - 1))%nat
  /\ DRR.drr_cache V w'
     = Lru.store _ _ (l, n, n_p, neval) rows (DRR.drr_cache V w).
Proof.
  intros Hfind H.
  destruct (drr_miss c sma Njs l_max l n n_p neval w w' (Ok rows) Hfind H)
    as (H1 & H2 & H3 & _).
  repeat split; assumption.
Qed.


(** X5: exceptions are not cached.  When a call of [drr] raises, the cache
    is left exactly as it was. *)
Theorem drr_raise_keeps_cache
  (c : Cusp) (sma : R) (Njs : nat) (l_max : Z) (l n n_p : Z)
  (neval : option R) (w w' : DRR.World V) (e : exn) :
  drr (DRR.__init__ c sma Njs l_max) l n n_p neval w = (Raise e, w') ->
  DRR.drr_cache V w' = DRR.drr_cache V w.
Proof.
  intros H.
  destruct (Lru.find _ _ DRR.key_eqb (l, n, n_p, neval) (DRR.drr_cache V w))
    as [v |] eqn:Hfind.
  - unfold drr, DRR.drr in H. rewrite Hfind in H. discriminate H.
  - exact (drr_miss c sma Njs l_max l n n_p neval w w' (Raise e) Hfind H).
Qed.

(** X6: a zero partner index.  With [n_p = 0] and a grid of at least one
    point, a call of [drr] that is not answered from the cache raises
    [ZeroDivisionError] at the first grid point: no Monte Carlo integration
    is run and nothing is cached. *)
Theorem drr_zero_partner_index_raises
  (c : Cusp) (sma : R) (Njs : nat) (l_max : Z) (l n : Z)
  (neval : option R) (w : DRR.World V) :
  (2 <= Njs)%nat ->
  Lru.find _ _ DRR.key_eqb (l, n, 0%Z, neval) (DRR.drr_cache V w) = None ->
  exists w',
    drr (DRR.__init__ c sma Njs l_max) l n 0 neval w
    = (Raise ZeroDivisionError, w')
    /\ DRR.mc_runs V w' = DRR.mc_runs V w
    /\ DRR.drr_cache V w' = DRR.drr_cache V w.
Proof.
  intros HN Hfind.
  destruct (j_grid_length c sma Njs l_max) as [Lj Lo].
  unfold drr, DRR.drr. rewrite Hfind. unfold DRR.drr_body.
  destruct (DRR.j (DRR.__init__ c sma Njs l_max)) as [| j0 js];
    [cbn in Lj; lia |].
  destruct (DRR.omega (DRR.__init__ c sma Njs l_max)) as [| o0 os];
    [cbn in Lo; lia |].
  rewrite drr_rows_cons. unfold bindS.
  destruct (DRR._drr V vegas_Integrator vegas_call sph_harm_abs _ j0 o0
              {| l_ := l; n_ := n; np_ := 0 |} _ w) as [res w1] eqn:Hp.
  apply drr_point_effect in Hp as (Hc & _ & Hz).
  destruct (Hz eq_refl) as [-> Hm].
  exists w1. repeat split; assumption.
Qed.

End GridResults.

(** X3 at a concrete input: the toy instance ([Njs = 2]), [drr(3, 1, 3)]
    from an empty cache. *)
Lemma drr_one_row_per_grid_point_witness :
  exists rows w',
    DRR.drr nat (fun s => s) fixed_vegas_call sph_harm_abs_l3
            toy_drr 3 1 3 None toy_world = (Ok rows, w')
    /\ length rows = (2 - 1)%nat
    /\ DRR.mc_runs nat w' = (DRR.mc_runs nat toy_world + (2 - 1))%nat
    /\ DRR.drr_cache nat w'
       = Lru.store _ _ (3%Z, 1%Z, 3%Z, None) rows
                   (DRR.drr_cache nat toy_world).
Proof.
  eexists. eexists. split; [reflexivity |].
  eapply (drr_one_row_per_grid_point nat (fun s => s) fixed_vegas_call
           sph_harm_abs_l3 toy_cusp 1 2 3 3 1 3 None toy_world);
    reflexivity.
Defined.


(** X5 at a concrete input: [drr(3, 1, 0)] raises on the toy instance. *)
Lemma drr_raise_keeps_cache_witness :
  exists w',
    DRR.drr nat (fun s => s) fixed_vegas_call sph_harm_abs_l3
            toy_drr 3 1 0 None toy_world = (Raise ZeroDivisionError, w')
    /\ DRR.drr_cache nat w' = DRR.drr_cache nat toy_world.
Proof.
  eexists. split; [reflexivity |].
  apply (drr_raise_keeps_cache nat (fun s => s) fixed_vegas_call
           sph_harm_abs_l3 toy_cusp 1 2 3 3 1 0 None toy_world _
           ZeroDivisionError).
  reflexivity.
Defined.

(** X6 at a concrete input. *)
Lemma drr_zero_partner_index_raises_witness :
  exists w',
    DRR.drr nat (fun s => s) fixed_vegas_call sph_harm_abs_l3
            (DRR.__init__ toy_cusp 1 2 3) 3 1 0 None toy_world
    = (Raise ZeroDivisionError, w')
    /\ DRR.mc_runs nat w' = DRR.mc_runs nat toy_world
    /\ DRR.drr_cache nat w' = DRR.drr_cache nat toy_world.
Proof.
  apply (drr_zero_partner_index_raises nat (fun s => s) fixed_vegas_call
           sph_harm_abs_l3 toy_cusp 1 2 3 3 1 None toy_world);
    [lia | reflexivity].
Defined.

(** ** More on the constructed table *)

Lemma fill_below_rows (c : Cusp) (omega rows : list R) (i : nat)
      (j1 j1' : list (list R)) :
  rows_of_length (length omega) j1 ->
  ResInterp.fill_below c omega rows i j1 = Ok j1' ->
  rows_of_length (length omega) j1'.
Proof.
  revert i j1; induction rows as [| a rows IH]; intros i j1 Hr H.
  - injection H as <-. exact Hr.
  - rewrite fill_below_cons in H.
    apply bind_ok in H as (row & Hrow & H).
    apply bind_ok in H as (t & Hs & H).
    apply (IH (S i) t); [| exact H].
    eapply set_row_rows; [exact Hr | | exact Hs].
    eapply row1_of_length; exact Hrow.
Qed.

Lemma fill_above_rows (c : Cusp) (omega rows : list R) (i last : nat)
      (j12 j12' : list (list R) * list (list R)) :
  rows_of_length (length omega) (fst j12) ->
  rows_of_length (length omega) (snd j12) ->
  ResInterp.fill_above c omega rows i last j12 = Ok j12' ->
  rows_of_length (length omega) (fst j12')
  /\ rows_of_length (length omega) (snd j12').
Proof.
  revert i j12; induction rows as [| a rows IH]; intros i j12 Hr1 Hr2 H.
  - injection H as <-. split; assumption.
  - rewrite fill_above_cons in H.
    apply bind_ok in H as (row1 & Hrow1 & H).
    apply bind_ok in H as (t1 & Hs1 & H).
    apply bind_ok in H as (t2 & Hs2 & H).
    apply (IH (S i) (t1, t2)); [| | exact H]; cbn [fst snd].
    + eapply set_row_rows; [exact Hr1 | | exact Hs1].
      eapply row1_of_length; exact Hrow1.
    + destruct (has_negative c a).
      * apply bind_ok in Hs2 as (row2 & Hrow2 & Hs2).
        eapply set_row_rows; [exact Hr2 | | exact Hs2].
        eapply row2_of_length; exact Hrow2.
      * injection Hs2 as <-. exact Hr2.
Qed.

(** X7: the shape of a constructed table.  The frequency array is kept as
    given; there are 1000 axis samples; both branch tables have 1000 rows,
    each with one entry per target frequency. *)
Theorem init_table_shape (c : Cusp) (omega : list R) (ri : ResInterp.t) :
  ResInterp.__init__ c omega = Ok ri ->
  ResInterp.omega ri = omega
  /\ omega <> []
  /\ length (ResInterp._af ri) = 1000%nat
  /\ length (ResInterp._j1 ri) = 1000%nat
  /\ length (ResInterp._j2 ri) = 1000%nat
  /\ rows_of_length (length omega) (ResInterp._j1 ri)
  /\ rows_of_length (length omega) (ResInterp._j2 ri).
Proof.
  intros Hri. destruct (init_shape c omega ri Hri) as (Hom & Hne & Hl1 & Hl2).
  apply init_inv in Hri.
  destruct Hri as (omax & a_min & j1 & _ & _ & _ & Haf & _ & Hb & Ha).
  cbv zeta in *.
  assert (Hlen : length (ResInterp._af ri) = 1000%nat)
    by (rewrite Haf; apply logspace_length).
  rewrite Hom in Hne.
  split; [exact Hom |]. split; [exact Hne |]. split; [exact Hlen |].
  split; [congruence |]. split; [congruence |].
  apply fill_below_rows in Hb; [| apply zeros2_rows].
  apply fill_above_rows in Ha; [exact Ha | exact Hb | apply zeros2_rows].
Qed.

(** X7 at a concrete input. *)
Lemma init_table_shape_witness :
  exists ri,
    ResInterp.__init__ toy_cusp [1 / 5] = Ok ri
    /\ ResInterp.omega ri = [1 / 5]
    /\ length (ResInterp._af ri) = 1000%nat
    /\ length (ResInterp._j1 ri) = 1000%nat
    /\ length (ResInterp._j2 ri) = 1000%nat.
Proof.
  destruct (toy_table (1 / 5)) as (ri & Hri & _); [lra |].
  exists ri. split; [exact Hri |].
  destruct (init_table_shape toy_cusp [1 / 5] ri Hri)
    as (H1 & _ & H2 & H3 & H4 & _).
  repeat split; assumption.
Defined.

(** X8: the axis of a constructed table.  Let [a_min] be the largest
    sample of the grid between [r_g] and [r_h] that is below [a_gr1] and at
    which [max(omega)] is below the critical curve.  With [a_gr1 <= r_h]
    the axis samples do not decrease, the first one is
    [10 ** log10(a_min)] and the last one is [10 ** log10(r_h)]: the end
    points after the round trip through [np.log10] and the power, which
    are [a_min] and [r_h] only up to the rounding of the two calls. *)
Theorem init_axis_range (c : Cusp) (omega : list R) (ri : ResInterp.t) :
  ResInterp.__init__ c omega = Ok ri ->
  a_gr1 c <= rh c ->
  let af0 := Np.logspace (Np.log10 (rg c)) (Np.log10 (rh c)) 1000 in
  exists a_min,
    In a_min af0
    /\ a_min < a_gr1 c
    /\ (forall omax, Np.amax omega = Ok omax ->
          omax < nu_p1 c a_min
          /\ forall a, In a af0 -> a < a_gr1 c -> omax < nu_p1 c a ->
                       a <= a_min)
    /\ StronglySorted Rle (ResInterp._af ri)
    /\ nth 0 (ResInterp._af ri) 0 = Np.pow10 (Np.log10 a_min)
    /\ nth 999 (ResInterp._af ri) 0 = Np.pow10 (Np.log10 (rh c)).
Proof.
  intros Hri Hrg. cbv zeta.
  assert (Hs := sorted_lt_le _ (init_af_increasing c omega ri Hri Hrg)).
  apply init_inv in Hri.
  destruct Hri as (omax & a_min & j1 & Homax & Hamin & _ & Haf & _).
  cbv zeta in *. rewrite select_map_filter in Hamin.
  apply amax_spec in Hamin as [Hin Hmax].
  apply filter_In in Hin as [Hin HP].
  apply andb_true_iff in HP as [HP1 HP2].
  apply Rltb_true in HP1, HP2.
  exists a_min. split; [exact Hin |]. split; [exact HP1 |].
  split; [| split; [exact Hs | split]].
  - intros omax' Ho. rewrite Homax in Ho. injection Ho as <-.
    split; [exact HP2 |]. intros a Ha H1 H2.
    rewrite Forall_forall in Hmax. apply Hmax. apply filter_In.
    split; [exact Ha |]. apply andb_true_iff.
    split; apply Rltb_true; assumption.
  - rewrite Haf, (logspace_nth _ _ 998 0) by lia.
    rewrite lin_point_0. reflexivity.
  - rewrite Haf, (logspace_nth _ _ 998 999) by lia.
    rewrite (lin_point_last _ _ 998). reflexivity.
Qed.

(** X8 at a concrete input. *)
Lemma init_axis_range_witness :
  exists ri a_min,
    ResInterp.__init__ toy_cusp [1 / 5] = Ok ri
    /\ In a_min toy_axis
    /\ a_min < a_gr1 toy_cusp
    /\ StronglySorted Rle (ResInterp._af ri)
    /\ nth 0 (ResInterp._af ri) 0 = Np.pow10 (Np.log10 a_min)
    /\ nth 999 (ResInterp._af ri) 0 = Np.pow10 (Np.log10 (rh toy_cusp)).
Proof.
  destruct (toy_table (1 / 5)) as (ri & Hri & _); [lra |].
  destruct (init_axis_range toy_cusp [1 / 5] ri Hri)
    as (a_min & H1 & H2 & _ & H3 & H4 & H5).
  - cbn. lra.
  - exists ri, a_min. repeat split; assumption.
Defined.

(** ** Rows and axis samples *)



















(** ** The local function [get_j] *)

Lemma in_combine_left (l1 l2 : list R) (x : R) :
  length l2 = length l1 -> In x l1 -> exists f, In (x, f) (combine l1 l2).
Proof.
  revert l2; induction l1 as [| a l1 IH]; intros [| b l2] Hl Hin;
    cbn [length] in Hl; try discriminate; [destruct Hin |].
  destruct Hin as [<- | Hin]; [exists b; left; reflexivity |].
  destruct (IH l2) as [f Hf]; [congruence | exact Hin |].
  exists f. right; exact Hf.
Qed.

(** X13: [get_j] and the sign of the sampled frequencies.  [get_j] raises
    [ValueError] (interpolation over an empty set of nodes) exactly when no
    sampled frequency is positive; otherwise it returns one angular
    momentum per target frequency. *)
Theorem get_j_raises_iff_no_positive (omega jf nup : list R) :
  length jf = length nup ->
  (ResInterp.get_j omega jf nup = Raise ValueError
   <-> Forall (fun v => v <= 0) nup)
  /\ (~ Forall (fun v => v <= 0) nup ->
      exists row, ResInterp.get_j omega jf nup = Ok row
                  /\ length row = length omega).
Proof.
  intros Hlen.
  assert (Hok : ~ Forall (fun v => v <= 0) nup ->
                exists row, ResInterp.get_j omega jf nup = Ok row
                            /\ length row = length omega).
  { intros Hn. apply Exists_Forall_neg in Hn.
    2:{ intros x. destruct (Rle_dec x 0); [left | right]; assumption. }
    apply Exists_exists in Hn as (x & Hx & Hpos).
    destruct (in_combine_left nup jf x Hlen Hx) as [f Hf].
    destruct (get_j_ok omega jf nup x f Hf) as [row Hrow]; [lra |].
    exists row. split; [exact Hrow |]. eapply get_j_length; exact Hrow. }
  split; [| exact Hok]. split.
  - intros Hr.
    destruct (Forall_dec (fun v => v <= 0) (fun v => Rle_dec v 0) nup)
      as [F | F]; [exact F |].
    destruct (Hok F) as (row & Hrow & _). congruence.
  - intros HF. rewrite get_j_unfold. unfold Np.interp.
    destruct (get_j_nodes jf nup) as [| [x f] rest] eqn:En; [reflexivity |].
    assert (Hin : In (x, f) (get_j_nodes jf nup))
      by (rewrite En; left; reflexivity).
    apply get_j_nodes_in in Hin as [Hin Hx]. apply in_combine_l in Hin.
    rewrite Forall_forall in HF. apply HF in Hin. lra.
Qed.

(** X13 at a concrete input: two samples, both frequencies negative. *)
Lemma get_j_raises_iff_no_positive_witness :
  ResInterp.get_j [1] [1 / 10; 1 / 2] [-1; -2] = Raise ValueError.
Proof.
  apply (get_j_raises_iff_no_positive [1] [1 / 10; 1 / 2] [-1; -2]).
  - reflexivity.
  - repeat constructor; lra.
Defined.

(** X14: targets outside the sampled frequencies.  In a row returned by
    [get_j], the entry of a target frequency that is below every positive
    sampled frequency, or above every one, is [0]. *)
Theorem get_j_zero_outside_samples
  (omega jf nup row : list R) (i : nat) :
  ResInterp.get_j omega jf nup = Ok row ->
  (i < length omega)%nat ->
  (forall x, In x nup -> x > 0 -> nth i omega 0 < x)
  \/ (forall x, In x nup -> x > 0 -> x < nth i omega 0) ->
  nth i row 0 = 0.
Proof.
  rewrite get_j_unfold. unfold Np.interp.
  destruct (get_j_nodes jf nup) as [| p0 rest] eqn:En; [discriminate |].
  intros H Hi Hout. injection H as <-.
  rewrite (nth_map_in_range _ omega 0 i Hi).
  assert (Hnode : forall q, In q (p0 :: rest) -> In (fst q) nup /\ fst q > 0).
  { intros [x f] Hq. rewrite <- En in Hq.
    apply get_j_nodes_in in Hq as [Hq Hx]. apply in_combine_l in Hq.
    split; assumption. }
  unfold Np.interp_at. destruct Hout as [Hlow | Hhigh].
  - destruct (Hnode p0 (or_introl eq_refl)) as [H1 H2].
    replace (Rltb (nth i omega 0) (fst p0)) with true; [reflexivity |].
    symmetry. apply Rltb_true. apply Hlow; assumption.
  - destruct (Hnode (last rest p0) (last_in p0 rest)) as [H1 H2].
    destruct (Rltb (nth i omega 0) (fst p0)); [reflexivity |].
    replace (Rltb (fst (last rest p0)) (nth i omega 0)) with true;
      [reflexivity |].
    symmetry. apply Rltb_true. apply Hhigh; assumption.
Qed.

Lemma get_j_single (w x f : R) :
  x > 0 -> ResInterp.get_j [w] [f] [x] = Ok [Np.interp_at w (x, f) [] 0 0].
Proof.
  intros Hx. unfold ResInterp.get_j, ResInterp.positive. cbn [map].
  replace (Rgtb x 0) with true by (symmetry; apply Rgtb_true, Hx).
  reflexivity.
Qed.

(** X14 at a concrete input: one sample of frequency [2], target [1]. *)
Lemma get_j_zero_outside_samples_witness :
  exists row,
    ResInterp.get_j [1] [1 / 2] [2] = Ok row /\ nth 0 row 0 = 0.
Proof.
  eexists. split; [apply get_j_single; lra |].
  apply (get_j_zero_outside_samples [1] [1 / 2] [2] _ 0).
  - apply get_j_single. lra.
  - cbn. lia.
  - left. intros x [<- | []] _. cbn. lra.
Defined.

(** ** Queries at the axis samples *)









(** ** Symmetries of the coupling integrand *)

(** X16: [A2_integrand] does not change when the two orbital positions are
    exchanged (true anomalies 1 and 3 with 2 and 4), nor when the sign of
    any single true anomaly is flipped: the phases enter only through
    cosines, and the two positions enter through products. *)
Theorem A2_integrand_phase_symmetries
  (sma j sma_p j_p : R) (lnnp : Lnnp) (t1 t2 t3 t4 : R) :
  let A ta := A2_integrand sma j sma_p j_p lnnp ta in
  let ta := {| ta1 := t1; ta2 := t2; ta3 := t3; ta4 := t4 |} in
  A (swap_positions ta) = A ta
  /\ A {| ta1 := - t1; ta2 := t2; ta3 := t3; ta4 := t4 |} = A ta
  /\ A {| ta1 := t1; ta2 := - t2; ta3 := t3; ta4 := t4 |} = A ta
  /\ A {| ta1 := t1; ta2 := t2; ta3 := - t3; ta4 := t4 |} = A ta
  /\ A {| ta1 := t1; ta2 := t2; ta3 := t3; ta4 := - t4 |} = A ta.
Proof.
  cbv zeta. unfold A2_integrand, swap_positions. cbn [ta1 ta2 ta3 ta4].
  assert (Hc : forall t x, cos (- t * x) = cos (t * x))
    by (intros t x; rewrite Ropp_mult_distr_l_reverse; apply cos_neg).
  split; [| repeat split; rewrite ?Hc, ?cos_neg; reflexivity].
  set (n := IZR (n_ lnnp)). set (n_p := IZR (np_ lnnp)).
  set (ecc := sqrt (1 - j ^ 2)). set (eccp := sqrt (1 - j_p ^ 2)).
  set (r_1 := sma * (1 - ecc ^ 2) / (1 - ecc * cos t1)).
  set (r_2 := sma * (1 - ecc ^ 2) / (1 - ecc * cos t2)).
  set (rp1 := sma_p * (1 - eccp ^ 2) / (1 - eccp * cos t3)).
  set (rp2 := sma_p * (1 - eccp ^ 2) / (1 - eccp * cos t4)).
  replace (cos (t2 * n) * cos (t1 * n) * cos (t4 * n_p) * cos (t3 * n_p))
    with (cos (t1 * n) * cos (t2 * n) * cos (t3 * n_p) * cos (t4 * n_p))
    by ring.
  replace (Rmin r_2 rp2 * Rmin r_1 rp1) with (Rmin r_1 rp1 * Rmin r_2 rp2)
    by ring.
  replace (r_2 * r_1 * rp2 * rp1) with (r_1 * r_2 * rp1 * rp2) by ring.
  reflexivity.
Qed.

(** ** An empty grid *)

Lemma j_grid_empty (c : Cusp) (sma : R) (Njs : nat) (l_max : Z) :
  (Njs <= 1)%nat ->
  DRR.j (DRR.__init__ c sma Njs l_max) = []
  /\ DRR.omega (DRR.__init__ c sma Njs l_max) = [].
Proof.
  intros H. destruct (j_grid_length c sma Njs l_max) as [Lj Lo].
  replace (Njs - 1)%nat with 0%nat in * by lia.
  apply length_zero_iff_nil in Lj, Lo. split; assumption.
Qed.

(** X17: with [Njs <= 1] the grid is empty and the interpolation table
    cannot be built: for every ratio, [_res_intrp] raises [ValueError]
    (the maximum of an empty frequency array). *)
Theorem res_intrp_raises_on_empty_grid
  (c : Cusp) (sma : R) (Njs : nat) (l_max : Z) (ratio : R) :
  (Njs <= 1)%nat ->
  DRR.j (DRR.__init__ c sma Njs l_max) = []
  /\ DRR._res_intrp (DRR.__init__ c sma Njs l_max) ratio = Raise ValueError.
Proof.
  intros H. destruct (j_grid_empty c sma Njs l_max H) as [Hj Ho].
  split; [exact Hj |]. unfold DRR._res_intrp. rewrite Ho. reflexivity.
Qed.

(** X17 at a concrete input. *)
Lemma res_intrp_raises_on_empty_grid_witness :
  DRR.j (DRR.__init__ toy_cusp 1 1 3) = []
  /\ DRR._res_intrp (DRR.__init__ toy_cusp 1 1 3) (1 / 2) = Raise ValueError.
Proof.
  apply (res_intrp_raises_on_empty_grid toy_cusp 1 1 3 (1 / 2)). lia.
Defined.

Section EmptyGrid.

Variable V : Type.
Variable vegas_Integrator : V -> V.
Variable vegas_call :
  (list Sample -> result (list R)) -> R -> V -> result (R * R) * V.
Variable sph_harm_abs : Z -> Z -> R.

(** X18: with [Njs <= 1] a call of [drr] that is not answered from the
    cache returns the empty array and caches it, for every harmonic triple
    (also [n_p = 0]): the loop body never runs, so nothing is integrated
    and the integrator is not touched. *)
Theorem drr_empty_grid_returns_empty
  (c : Cusp) (sma : R) (Njs : nat) (l_max : Z) (l n n_p : Z)
  (neval : option R) (w : DRR.World V) :
  (Njs <= 1)%nat ->
  Lru.find _ _ DRR.key_eqb (l, n, n_p, neval) (DRR.drr_cache V w) = None ->
  DRR.drr V vegas_Integrator vegas_call sph_harm_abs
          (DRR.__init__ c sma Njs l_max) l n n_p neval w
  = (Ok [],
     DRR.with_cache V w
       (Lru.store _ _ (l, n, n_p, neval) [] (DRR.drr_cache V w))).
Proof.
  intros H Hfind. destruct (j_grid_empty c sma Njs l_max H) as [Hj Ho].
  unfold DRR.drr. rewrite Hfind. unfold DRR.drr_body. rewrite Hj.
  reflexivity.
Qed.

End EmptyGrid.

(** X18 at a concrete input. *)
Lemma drr_empty_grid_returns_empty_witness :
  DRR.drr nat (fun s => s) fixed_vegas_call sph_harm_abs_l3
          (DRR.__init__ toy_cusp 1 1 3) 3 1 0 None toy_world
  = (Ok [],
     DRR.with_cache nat toy_world
       (Lru.store _ _ (3%Z, 1%Z, 0%Z, None) [] (DRR.drr_cache nat toy_world))).
Proof.
  apply (drr_empty_grid_returns_empty nat (fun s => s) fixed_vegas_call
           sph_harm_abs_l3 toy_cusp 1 1 3 3 1 0 None toy_world);
    [lia | reflexivity].
Defined.

(** ** Keyword arguments *)

Section Keywords.

Import String.

Variable Cusp_init : R -> R -> R -> R -> Cusp.

Lemma kw_get_set_same (k : string) (v : Kw.value) (d : Kw.dict) :
  Kw.get k (Kw.set k v d) = Some v.
Proof.
  induction d as [| [k' v'] d IH]; cbn.
  - rewrite String.eqb_refl. reflexivity.
  - destruct (String.eqb k k') eqn:E; cbn.
    + rewrite String.eqb_refl. reflexivity.
    + rewrite E. exact IH.
Qed.

Lemma kw_get_set_other (k k' : string) (v : Kw.value) (d : Kw.dict) :
  String.eqb k' k = false -> Kw.get k' (Kw.set k v d) = Kw.get k' d.
Proof.
  intros Hne. induction d as [| [k0 v0] d IH]; cbn.
  - rewrite Hne. reflexivity.
  - destruct (String.eqb k k0) eqn:E; cbn.
    + apply String.eqb_eq in E. subst k0. rewrite Hne. reflexivity.
    + rewrite IH. reflexivity.
Qed.

Lemma kw_merge_cons (d1 d2 : Kw.dict) (k : string) (v : Kw.value) :
  Kw.merge d1 ((k, v) :: d2) = Kw.merge (Kw.set k v d1) d2.
Proof. reflexivity. Qed.

Lemma kw_get_merge_base (k' : string) (d a b : Kw.dict) :
  Kw.get k' a = Kw.get k' b ->
  Kw.get k' (Kw.merge a d) = Kw.get k' (Kw.merge b d).
Proof.
  revert a b; induction d as [| [k0 v0] d IH]; intros a b H; [exact H |].
  rewrite !kw_merge_cons. apply IH.
  destruct (String.eqb k' k0) eqn:E.
  - apply String.eqb_eq in E. subst k0. rewrite !kw_get_set_same. reflexivity.
  - rewrite !kw_get_set_other by exact E. exact H.
Qed.

(** Writing a key into the keyword arguments does not change what the
    merged dict holds under another key. *)
Lemma kw_get_merge_set (k k' : string) (v : Kw.value) (d1 d2 : Kw.dict) :
  String.eqb k' k = false ->
  Kw.get k' (Kw.merge d1 (Kw.set k v d2)) = Kw.get k' (Kw.merge d1 d2).
Proof.
  intros Hne. revert d1; induction d2 as [| [k0 v0] d2 IH]; intros d1.
  - cbn [Kw.set]. rewrite kw_merge_cons. cbn [Kw.merge fold_left].
    apply kw_get_set_other, Hne.
  - cbn [Kw.set]. destruct (String.eqb k k0) eqn:E.
    + apply String.eqb_eq in E. subst k0. rewrite !kw_merge_cons.
      apply kw_get_merge_base. rewrite !kw_get_set_other by exact Hne.
      reflexivity.
    + rewrite !kw_merge_cons. apply IH.
Qed.

Lemma kw_known_false (k k' : string) :
  Kw.known k = false -> Kw.known k' = true -> String.eqb k' k = false.
Proof.
  intros Hk Hk'. destruct (String.eqb k' k) eqn:E; [| reflexivity].
  apply String.eqb_eq in E. subst k'. congruence.
Qed.

(** X19: the command line's masses do not reach the model.  [main] passes
    the black-hole mass and the stellar mass under the keywords [mbh_mass]
    and [star_mass], which [DRR.__init__] does not read: whatever the
    options [--mbh] and [--mstar] (and the positional [l_max]) are, the
    instance is built with [mbh = 4e6], [mstar = 1], [Njs = 101] and
    [l_max = 1]; only [sma], [gamma] and [rh] are taken from the command
    line. *)
Theorem cli_masses_never_reach_the_cusp
  (sma : R) (l_max : Z) (gamma mstar mbh rh : R) :
  Kw.main_drr Cusp_init sma l_max gamma mstar mbh rh
  = Some (DRR.__init__ (Cusp_init gamma 4000000 1 rh) sma 101 1).
Proof. reflexivity. Qed.

(** X20: a keyword that [DRR.__init__] does not read ([l_max], [gamma],
    [mbh], [mstar], [Njs] and [rh] are the ones it reads) is ignored:
    passing it, with any value, builds the same instance. *)
Theorem unknown_keyword_is_ignored
  (sma : R) (kwargs : Kw.dict) (k : string) (v : Kw.value) :
  Kw.known k = false ->
  Kw.DRR_init Cusp_init sma (Kw.set k v kwargs)
  = Kw.DRR_init Cusp_init sma kwargs.
Proof.
  intros Hk. unfold Kw.DRR_init. cbv zeta.
  rewrite !(kw_get_merge_set k _ v) by (apply (kw_known_false k); [exact Hk | reflexivity]).
  reflexivity.
Qed.

End Keywords.

Section KeywordsWitness.

Import String.

(** X20 at a concrete input: the keyword [mbh_mass] of [cli.py]. *)
Lemma unknown_keyword_is_ignored_witness :
  Kw.DRR_init (fun _ _ _ _ => toy_cusp) 1
    (Kw.set "mbh_mass" (Kw.VFloat 1000) [("gamma"%string, Kw.VFloat 2)])
  = Kw.DRR_init (fun _ _ _ _ => toy_cusp) 1 [("gamma"%string, Kw.VFloat 2)].
Proof.
  apply (unknown_keyword_is_ignored (fun _ _ _ _ => toy_cusp) 1 [("gamma"%string, Kw.VFloat 2)]
           "mbh_mass" (Kw.VFloat 1000)).
  reflexivity.
Defined.

End KeywordsWitness.

Section KeywordDefaults.

Import String.

Lemma kw_get_absent (k : string) (d : Kw.dict) :
  ~ In k (map fst d) -> Kw.get k d = None.
Proof.
  induction d as [| [k' v'] d IH]; cbn; [reflexivity |].
  intros H. destruct (String.eqb k k') eqn:E.
  - apply String.eqb_eq in E. subst k'. tauto.
  - apply IH. tauto.
Qed.

(** X21: keyword arguments over defaults.  For keyword arguments with
    distinct names, the merged dict [{**defaults, **kwargs}] holds under
    each key the value passed by the caller if there is one, and the
    default otherwise. *)
Theorem keyword_overrides_default (d1 kwargs : Kw.dict) (k : string) :
  NoDup (map fst kwargs) ->
  Kw.get k (Kw.merge d1 kwargs)
  = match Kw.get k kwargs with
    | Some v => Some v
    | None => Kw.get k d1
    end.
Proof.
  intros Hnd. revert d1; induction kwargs as [| [k0 v0] d2 IH]; intros d1;
    [reflexivity |].
  cbn [map fst] in Hnd. apply NoDup_cons_iff in Hnd as [Hnotin Hnd].
  rewrite kw_merge_cons, (IH Hnd). cbn [Kw.get].
  destruct (String.eqb k k0) eqn:E.
  - apply String.eqb_eq in E. subst k0.
    rewrite (kw_get_absent k d2 Hnotin). apply kw_get_set_same.
  - destruct (Kw.get k d2); [reflexivity |].
    apply kw_get_set_other, E.
Qed.

(** X21 at a concrete input: [Njs=11] passed, [rh] left to its default. *)
Lemma keyword_overrides_default_witness :
  Kw.get "Njs" (Kw.merge Kw.defaults [("Njs"%string, Kw.VInt 11)])
  = Some (Kw.VInt 11)
  /\ Kw.get "rh" (Kw.merge Kw.defaults [("Njs"%string, Kw.VInt 11)])
     = Some (Kw.VInt 2).
Proof.
  split.
  - rewrite (keyword_overrides_default Kw.defaults
               [("Njs"%string, Kw.VInt 11)] "Njs").
    + reflexivity.
    + repeat constructor. intros [].
  - reflexivity.
Defined.

End KeywordDefaults.

(** ** When the construction returns, and when it cannot *)

Lemma get_j_ok_positive (omega jf nup row : list R) :
  ResInterp.get_j omega jf nup = Ok row ->
  exists x f, In (x, f) (combine nup jf) /\ x > 0.
Proof.
  intros Hrow. rewrite get_j_unfold in Hrow. unfold Np.interp in Hrow.
  destruct (get_j_nodes jf nup) as [| [x f] rest] eqn:En; [discriminate |].
  exists x, f. apply get_j_nodes_in. rewrite En. left. reflexivity.
Qed.

Lemma row1_of_ok_positive (c : Cusp) (omega : list R) (a : R) :
  (exists row, row1_of c omega a = Ok row) ->
  exists j, In j (ResInterp.jf_grid c a) /\ nu_p c a j > 0.
Proof.
  unfold row1_of. intros [row Hrow].
  destruct (get_j_ok_positive omega (ResInterp.jf_grid c a)
              (map (nu_p c a) (ResInterp.jf_grid c a)) row Hrow)
    as (x & f & Hin & Hx).
  destruct (combine_map_self_in (nu_p c a) (ResInterp.jf_grid c a) x f Hin)
    as [E Hf].
  exists f. split; [exact Hf | rewrite <- E; exact Hx].
Qed.

Lemma positive_row1_of_ok (c : Cusp) (omega : list R) (a : R) :
  (exists j, In j (ResInterp.jf_grid c a) /\ nu_p c a j > 0) ->
  exists row, row1_of c omega a = Ok row.
Proof.
  unfold row1_of.
  intros (j & Hj & Hpos).
  apply (get_j_ok omega (ResInterp.jf_grid c a)
           (map (nu_p c a) (ResInterp.jf_grid c a)) (nu_p c a j) j);
    [| exact Hpos].
  apply (in_combine_map_self (nu_p c a)), Hj.
Qed.

(** X22: a sufficient condition for the construction.  Call an axis
    sample of the log grid between [r_g] and [r_h] a candidate when it is
    below [a_gr1] and [max(omega)] is below the critical curve there.
    When the frequency array is not empty, there is a candidate, the round
    trip [10 ** log10(a)] of every candidate is still below [a_gr1] (so
    that the new grid, which starts at the round trip of the largest
    candidate, has a sample below [a_gr1] and the first loop binds [last]),
    and at every axis some sampled precession frequency is positive,
    [ResInterp.__init__] returns a table. *)
Theorem init_returns
  (c : Cusp) (omega : list R) (omax a0 : R) :
  let af0 := Np.logspace (Np.log10 (rg c)) (Np.log10 (rh c)) 1000 in
  Np.amax omega = Ok omax ->
  In a0 af0 -> a0 < a_gr1 c -> omax < nu_p1 c a0 ->
  (forall a, In a af0 -> a < a_gr1 c -> omax < nu_p1 c a ->
             Np.pow10 (Np.log10 a) < a_gr1 c) ->
  (forall a, exists j, In j (ResInterp.jf_grid c a) /\ nu_p c a j > 0) ->
  exists ri, ResInterp.__init__ c omega = Ok ri.
Proof.
  cbv zeta. intros Ho Ha0 Hlt Hnu Hround Hpos.
  apply (init_ok c omega omax a0 Ho Ha0 Hlt Hnu Hround).
  intros a. apply positive_row1_of_ok, Hpos.
Qed.

(** X22 at a concrete input: the toy cusp and the frequency [1/5]; the
    only candidate is the first axis sample [1], and
    [10 ** log10(1) = 10 ** 0 = 1]. *)
Lemma init_returns_witness :
  exists ri, ResInterp.__init__ toy_cusp [1 / 5] = Ok ri.
Proof.
  apply (init_returns toy_cusp [1 / 5] (1 / 5) 1).
  - reflexivity.
  - change (In 1 toy_axis). rewrite <- toy_axis_0. apply nth_In.
    rewrite toy_axis_length. lia.
  - cbn. lra.
  - cbn. lra.
  - intros a Ha Hlt _. change (In a toy_axis) in Ha.
    change (a_gr1 toy_cusp) with (1001 / 1000) in Hlt |- *.
    assert (Hin : In a (filter (fun a => Rltb a (1001 / 1000)) toy_axis))
      by (apply filter_In; split; [exact Ha | apply Rltb_true, Hlt]).
    rewrite (toy_below (1001 / 1000)) in Hin
      by (split; [lra | left; apply toy_axis_1]).
    destruct Hin as [<- | []]. rewrite log10_1, pow10_0. lra.
  - intros a. exists (Np.pow10 (-1)). split; [toy_sample 0%nat |].
    unfold toy_cusp. rewrite toy_nu_p, pow10_m1. lra.
Defined.

(** X23: a necessary condition.  In a constructed table, at every axis
    sample that is not exactly [a_gr1] some sampled precession frequency
    is positive: otherwise [get_j] would have raised [ValueError] in one of
    the two loops. *)
Theorem init_needs_positive_frequencies
  (c : Cusp) (omega : list R) (ri : ResInterp.t) (a : R) :
  ResInterp.__init__ c omega = Ok ri ->
  In a (ResInterp._af ri) -> a <> a_gr1 c ->
  exists j, In j (ResInterp.jf_grid c a) /\ nu_p c a j > 0.
Proof.
  intros Hri Ha Hne. apply (row1_of_ok_positive c omega a).
  assert (Hrows := init_rows c omega ri Hri). cbv zeta in Hrows.
  set (below := filter (fun a => Rltb a (a_gr1 c)) (ResInterp._af ri)) in *.
  set (above := filter (fun a => Rgtb a (a_gr1 c)) (ResInterp._af ri)) in *.
  destruct (Rlt_dec a (a_gr1 c)) as [Hlt | Hge].
  - assert (Hin : In a below)
      by (apply filter_In; split; [exact Ha | apply Rltb_true, Hlt]).
    apply (In_nth _ _ 0) in Hin as (k & Hk & Ek).
    destruct (Hrows k []) as (R1 & _). destruct (R1 Hk) as [Hr _].
    rewrite Ek in Hr. eexists; exact Hr.
  - assert (Hin : In a above)
      by (apply filter_In; split; [exact Ha | apply Rgtb_true; lra]).
    apply (In_nth _ _ 0) in Hin as (k & Hk & Ek).
    destruct (Hrows (length below + k)%nat []) as (_ & R2 & _).
    destruct R2 as [Hr _]; [lia |].
    replace (length below + k - length below)%nat with k in Hr by lia.
    rewrite Ek in Hr. eexists; exact Hr.
Qed.

(** X23 at a concrete input: the last axis sample of the toy table. *)
Lemma init_needs_positive_frequencies_witness :
  exists ri j,
    ResInterp.__init__ toy_cusp [1 / 5] = Ok ri
    /\ In j (ResInterp.jf_grid toy_cusp 10) /\ nu_p toy_cusp 10 j > 0.
Proof.
  destruct (toy_table (1 / 5)) as (ri & Hri & _ & Haf & _); [lra |].
  destruct (init_needs_positive_frequencies toy_cusp [1 / 5] ri 10 Hri)
    as (j & Hj & Hpos).
  - rewrite Haf, <- toy_axis_999. apply nth_In. rewrite toy_axis_length. lia.
  - cbn. lra.
  - exists ri, j. repeat split; assumption.
Defined.
